(** * bigtable Life Tracker: the room server, embedded and verified

    The server keeps a registry [rooms] of game rooms, a process-wide
    [playerIdCounter], and one closure per WebSocket connection holding the
    connection's [playerId] and its mutable [currentRoomCode].  Every handler
    runs to completion before the next event, so the server is a state machine
    over the events "connection", "message" and "close".

    Conventions of the embedding:
    - JSON numbers are integers ([Z]); identifiers, names and room codes are
      strings, as in the protocol's message shapes.
    - [rooms], and every [commanderDamage] object, is a [gmap] keyed by strings.
      Reading [rooms[key]] for a key the registry does not own but
      [Object.prototype] does yields a value without [players]; the first
      dereference then throws.  [room_at] models exactly that.  A
      [commanderDamage] object is only read at the id of a player found in
      the room, and ids are "player<n>", so no inherited key is ever read
      there.
    - A WebSocket is named by the number of the connection; it is open from
      its "connection" event to its "close" event.
    - The environment supplies, per event, the draws of [Math.random] (as the
      index [Math.floor(Math.random() * 36)]) and the wall-clock string.
    - [console.log] output is not part of the model.

    The file has three parts: the server as the source has it (with the
    earlier copy of the server in module [Legacy]), the notions the
    statements are phrased with, and the proofs. *)

From stdpp Require Import base option list gmap strings pretty fin_maps.
From Stdlib Require Import ZArith Lia.

Local Open Scope string_scope.
Local Open Scope Z_scope.
Local Open Scope list_scope.

(** * Part I: the server *)

(** ** Data model *)

Record LogEntry : Type := mkLogEntry {
  time : string;
  message : string
}.

Record Player : Type := mkPlayer {
  id : string;
  name : string;
  life : Z;
  color : option string;
  commanderDamage : gmap string Z;
  ws : N
}.

Record Room : Type := mkRoom {
  players : list Player;
  gameLog : list LogEntry
}.

(** The closure variables of one connection handler. *)
Record Conn : Type := mkConn {
  playerId : string;
  currentRoomCode : option string
}.

Record Server : Type := mkServer {
  rooms : gmap string Room;
  playerIdCounter : N;
  conns : gmap N Conn
}.

Global Instance LogEntry_eq_dec : EqDecision LogEntry.
Proof. solve_decision. Defined.
Global Instance Player_eq_dec : EqDecision Player.
Proof. solve_decision. Defined.
Global Instance Room_eq_dec : EqDecision Room.
Proof. solve_decision. Defined.

Definition set_life (v : Z) (p : Player) : Player :=
  mkPlayer (id p) (name p) v (color p) (commanderDamage p) (ws p).
Definition set_name (v : string) (p : Player) : Player :=
  mkPlayer (id p) v (life p) (color p) (commanderDamage p) (ws p).
Definition set_commanderDamage (v : gmap string Z) (p : Player) : Player :=
  mkPlayer (id p) (name p) (life p) (color p) v (ws p).
Definition set_players (v : list Player) (r : Room) : Room :=
  mkRoom v (gameLog r).
Definition set_gameLog (v : list LogEntry) (r : Room) : Room :=
  mkRoom (players r) v.
Definition set_rooms (v : gmap string Room) (s : Server) : Server :=
  mkServer v (playerIdCounter s) (conns s).
Definition set_conns (v : gmap N Conn) (s : Server) : Server :=
  mkServer (rooms s) (playerIdCounter s) v.

(** ** Messages *)

(** What [getGameState] serialises for one player: everything but [ws]. *)
Record PlayerJson : Type := mkPlayerJson {
  pj_id : string;
  pj_name : string;
  pj_life : Z;
  pj_color : option string;
  pj_commanderDamage : gmap string Z
}.

Record GameState : Type := mkGameState {
  gs_players : list PlayerJson;
  gs_gameLog : list LogEntry
}.

Inductive ServerMsg : Type :=
  | ROOM_CREATED (roomCode pid : string) (gameState : option GameState)
  | ROOM_JOINED (pid : string) (gameState : option GameState)
  | GAME_UPDATE (gameState : option GameState)
  | ERROR (msg : string).

(** [Send w m]: the frame [m] written to socket [w]. *)
Inductive Output : Type :=
  | Send (w : N) (m : ServerMsg).

Inductive ClientMsg : Type :=
  | CREATE_ROOM
  | JOIN_ROOM (roomCode : string)
  | UPDATE_LIFE (pid : string) (newLife : Z)
  | UPDATE_COMMANDER_DAMAGE (sourcePlayerId targetPlayerId : string) (damage : Z)
  | UPDATE_NAME (pid : string) (newName : string)
  | RESET_GAME
  | OTHER.

(** An inbound text frame: not JSON at all, the JSON literal [null] (whose
    [type] cannot be read), or a value whose [type] selects a case ([OTHER]
    for every value without one of the six known types). *)
Inductive Frame : Type :=
  | Malformed
  | JsonNull
  | Json (data : ClientMsg).

Record Env : Type := mkEnv {
  rnd : nat → nat;
  now : string
}.

Inductive event : Type :=
  | Connect
  | Message (w : N) (env : Env) (frame : Frame)
  | Close (w : N) (env : Env).

(** ** The handler monad: state, sent frames, and JavaScript exceptions *)

(** A computation returns the new state, the frames it sent, and its value,
    [None] when an exception is propagating. *)
Definition M (A : Type) : Type := Server → Server * list Output * option A.

Definition ret {A} (a : A) : M A := λ s, (s, [], Some a).

Definition bind {A B} (m : M A) (f : A → M B) : M B := λ s,
  match m s with
  | (s1, o1, Some a) =>
      match f a s1 with (s2, o2, r) => (s2, o1 ++ o2, r) end
  | (s1, o1, None) => (s1, o1, None)
  end.

Definition throw {A} : M A := λ s, (s, [], None).

Definition try_catch {A} (m : M A) (handler : M A) : M A := λ s,
  match m s with
  | (s1, o1, Some a) => (s1, o1, Some a)
  | (s1, o1, None) =>
      match handler s1 with (s2, o2, r) => (s2, o1 ++ o2, r) end
  end.

Declare Scope js_scope.
Delimit Scope js_scope with js.
Notation "'let!' x := m 'in' k" := (bind m (λ x, k))
  (at level 10, x pattern, m at level 100, k at level 200) : js_scope.
Notation "m ;; k" := (bind m (λ _, k))
  (at level 100, k at level 200, right associativity) : js_scope.
Local Open Scope js_scope.

Definition gets {A} (f : Server → A) : M A := λ s, (s, [], Some (f s)).
Definition modify (f : Server → Server) : M unit := λ s, (f s, [], Some tt).
Definition send (w : N) (m : ServerMsg) : M unit := λ s, (s, [Send w m], Some tt).

Fixpoint forEach {A} (l : list A) (f : A → M unit) : M unit :=
  match l with
  | [] => ret tt
  | x :: l' => f x ;; forEach l' f
  end.

(** ** Registry access *)

Definition object_prototype_keys : list string :=
  [ "constructor"; "__proto__"; "hasOwnProperty"; "isPrototypeOf";
    "propertyIsEnumerable"; "toLocaleString"; "toString"; "valueOf";
    "__defineGetter__"; "__defineSetter__"; "__lookupGetter__";
    "__lookupSetter__" ].

(** [rooms[code]] followed by a dereference: the room if the registry owns
    the key, [None] if the read is [undefined], and a TypeError if the key is
    inherited from [Object.prototype]. *)
Definition room_at (code : string) : M (option Room) := λ s,
  match rooms s !! code with
  | Some r => (s, [], Some (Some r))
  | None =>
      if bool_decide (code ∈ object_prototype_keys)
      then (s, [], None)
      else (s, [], Some None)
  end.

Definition put_room (code : string) (r : Room) : M unit :=
  modify (λ s, set_rooms (<[code := r]> (rooms s)) s).

Definition delete_room (code : string) : M unit :=
  modify (λ s, set_rooms (delete code (rooms s)) s).

Definition set_currentRoomCode (w : N) (pid : string) (code : string) : M unit :=
  modify (λ s, set_conns (<[w := mkConn pid (Some code)]> (conns s)) s).

Definition get_currentRoomCode (w : N) : M (option string) :=
  gets (λ s, c ← conns s !! w; currentRoomCode c).

Definition readyState_OPEN (w : N) : M bool :=
  gets (λ s, bool_decide (is_Some (conns s !! w))).

(** ** Helpers of the server *)

Definition playerColors : list string :=
  [ "#FF6B6B"; "#4ECDC4"; "#45B7D1"; "#96CEB4"; "#FECA57"; "#DDA0DD" ].

Definition chars : string := "ABCDEFGHIJKLMNOPQRSTUVWXYZ0123456789".

(** [s.charAt(i)]: the one-character string at [i], or the empty string. *)
Definition charAt (s : string) (i : nat) : string :=
  match String.get i s with
  | Some c => String c ""
  | None => ""
  end.

(** [Math.floor(Math.random() * chars.length)] for the [i]-th draw of the
    event: [Math.random()] lies in [0, 1), so the index lies in 0..35. *)
Definition random_index (env : Env) (i : nat) : nat :=
  (rnd env i `mod` String.length chars)%nat.

Definition generateRoomCode (env : Env) : string :=
  fold_left (λ code i, code +:+ charAt chars (random_index env i)) (seq 0 6) "".

Definition generatePlayerId : M string := λ s,
  (mkServer (rooms s) (playerIdCounter s + 1) (conns s), [],
   Some ("player" +:+ pretty (playerIdCounter s))).

Definition player_json (p : Player) : PlayerJson :=
  mkPlayerJson (id p) (name p) (life p) (color p) (commanderDamage p).

Definition getGameState (roomCode : string) : M (option GameState) :=
  let! r := room_at roomCode in
  match r with
  | None => ret None
  | Some room =>
      ret (Some (mkGameState (player_json <$> players room) (gameLog room)))
  end.

Definition broadcastGameState (roomCode : string) : M unit :=
  let! r := room_at roomCode in
  match r with
  | None => ret tt
  | Some room =>
      let! gameState := getGameState roomCode in
      forEach (players room) (λ player,
        let! open := readyState_OPEN (ws player) in
        if (open : bool)
        then try_catch (send (ws player) (GAME_UPDATE gameState)) (ret tt)
        else ret tt)
  end.

(** [gameLog.push(entry)], then [gameLog.shift()] when over 50 entries. *)
Definition push_shift (entry : LogEntry) (log : list LogEntry) : list LogEntry :=
  let log' := log ++ [entry] in
  if bool_decide (50 < length log')%nat then tail log' else log'.

Definition addToLog (env : Env) (roomCode : string) (msg : string) : M unit :=
  let! r := room_at roomCode in
  match r with
  | None => ret tt
  | Some room =>
      put_room roomCode
        (set_gameLog (push_shift (mkLogEntry (now env) msg) (gameLog room)) room)
  end.

(** [players.find(p => p.id === pid)]: the first match, with its position,
    which is where a later assignment to the found object lands. *)
Definition find_player (pid : string) (l : list Player) : option (nat * Player) :=
  list_find (λ p, id p = pid) l.

(** The guard [!currentRoomCode || !rooms[currentRoomCode]] and the room read
    that follows it: [None] when the handler returns early. *)
Definition current_room (code : option string) : M (option (string * Room)) :=
  match code with
  | None => ret None
  | Some c =>
      if bool_decide (c = "") then ret None
      else
        let! r := room_at c in
        ret (pair c <$> r)
  end.

(** ** The message handler, case by case *)

(** [rooms[roomCode].players.push(p)] *)
Definition push_player (roomCode : string) (p : Player) : M unit :=
  let! r := room_at roomCode in
  match r with
  | None => throw
  | Some room => put_room roomCode (set_players (players room ++ [p]) room)
  end.

Definition case_CREATE_ROOM (w : N) (playerId : string) (env : Env) : M unit :=
  let roomCode := generateRoomCode env in
  put_room roomCode (mkRoom [] []) ;;
  let creator :=
    mkPlayer playerId "Player 1" 40 (playerColors !! 0%nat) ∅ w in
  push_player roomCode creator ;;
  set_currentRoomCode w playerId roomCode ;;
  let! gameState := getGameState roomCode in
  send w (ROOM_CREATED roomCode playerId gameState) ;;
  addToLog env roomCode (name creator +:+ " created the game").

Definition case_JOIN_ROOM (w : N) (playerId : string) (env : Env)
    (joinCode : string) : M unit :=
  let! r := room_at joinCode in
  match r with
  | None => send w (ERROR "Room not found")
  | Some room =>
      if bool_decide (6 ≤ length (players room))%nat
      then send w (ERROR "Room is full")
      else
        let newPlayer :=
          mkPlayer playerId
            ("Player " +:+ pretty (length (players room) + 1)%nat) 40
            (playerColors !! length (players room)) ∅ w in
        push_player joinCode newPlayer ;;
        set_currentRoomCode w playerId joinCode ;;
        let! gameState := getGameState joinCode in
        send w (ROOM_JOINED playerId gameState) ;;
        addToLog env joinCode (name newPlayer +:+ " joined the game") ;;
        broadcastGameState joinCode
  end.

(** The log line of a life change: [<name>: <old> → <new> (<±change>)]. *)
Definition life_message (player : Player) (newLife : Z) : string :=
  let oldLife := life player in
  let change := newLife - oldLife in
  let changeStr :=
    if bool_decide (0 < change) then "+" +:+ pretty change else pretty change in
  name player +:+ ": " +:+ pretty oldLife +:+ " → " +:+ pretty newLife
    +:+ " (" +:+ changeStr +:+ ")".

Definition case_UPDATE_LIFE (w : N) (env : Env) (pid : string) (newLife : Z) : M unit :=
  let! code := get_currentRoomCode w in
  let! cur := current_room code in
  match cur with
  | None => ret tt
  | Some (currentRoomCode, room) =>
      match find_player pid (players room) with
      | None => ret tt
      | Some (i, player) =>
          put_room currentRoomCode
            (set_players (<[i := set_life newLife player]> (players room)) room) ;;
          addToLog env currentRoomCode (life_message player newLife) ;;
          broadcastGameState currentRoomCode
      end
  end.

(** [commanderDamage[key] || 0] *)
Definition damage_or_zero (d : gmap string Z) (key : string) : Z :=
  match d !! key with
  | Some v => if bool_decide (v = 0) then 0 else v
  | None => 0
  end.

(** The assignments of the UPDATE_COMMANDER_DAMAGE case to the target object.
    ([commanderDamage] is always an object, so the initialisation guard in
    the source never fires.) *)
Definition apply_commander_damage (sourcePlayerId : string) (newDamage : Z)
    (targetPlayer : Player) : Player :=
  let oldDamage := damage_or_zero (commanderDamage targetPlayer) sourcePlayerId in
  let damageDifference := newDamage - oldDamage in
  let t1 :=
    set_commanderDamage
      (<[sourcePlayerId := newDamage]> (commanderDamage targetPlayer)) targetPlayer in
  if bool_decide (damageDifference ≠ 0)
  then set_life (Z.max 0 (life t1 - damageDifference)) t1
  else t1.

(** The log line of a commander-damage update, if any: it is built after the
    assignments, from the target's new life. *)
Definition damage_message (sourcePlayer targetPlayer : Player) (newLife : Z)
    (newDamage damageDifference : Z) : option string :=
  if bool_decide (0 < damageDifference) then
    Some (name sourcePlayer +:+ " dealt " +:+ pretty damageDifference
            +:+ " commander damage to " +:+ name targetPlayer
            +:+ " (total: " +:+ pretty newDamage +:+ ") - Life: "
            +:+ pretty (newLife + damageDifference) +:+ " → " +:+ pretty newLife)
  else if bool_decide (damageDifference < 0) then
    Some (name sourcePlayer +:+ " removed " +:+ pretty (Z.abs damageDifference)
            +:+ " commander damage from " +:+ name targetPlayer
            +:+ " (total: " +:+ pretty newDamage +:+ ") - Life: "
            +:+ pretty (newLife - damageDifference) +:+ " → " +:+ pretty newLife)
  else None.

Definition case_UPDATE_COMMANDER_DAMAGE (w : N) (env : Env)
    (sourcePlayerId targetPlayerId : string) (damage : Z) : M unit :=
  let! code := get_currentRoomCode w in
  let! cur := current_room code in
  match cur with
  | None => ret tt
  | Some (currentRoomCode, room) =>
      match find_player targetPlayerId (players room),
            find_player sourcePlayerId (players room) with
      | Some (i, targetPlayer), Some (_, sourcePlayer) =>
          let oldDamage :=
            damage_or_zero (commanderDamage targetPlayer) sourcePlayerId in
          let newDamage := damage in
          let damageDifference := newDamage - oldDamage in
          let target' := apply_commander_damage sourcePlayerId newDamage targetPlayer in
          put_room currentRoomCode
            (set_players (<[i := target']> (players room)) room) ;;
          match damage_message sourcePlayer targetPlayer (life target')
                  newDamage damageDifference with
          | Some msg => addToLog env currentRoomCode msg
          | None => ret tt
          end ;;
          broadcastGameState currentRoomCode
      | _, _ => ret tt
      end
  end.

Definition case_UPDATE_NAME (w : N) (env : Env) (pid : string) (newName : string) : M unit :=
  let! code := get_currentRoomCode w in
  let! cur := current_room code in
  match cur with
  | None => ret tt
  | Some (currentRoomCode, room) =>
      match find_player pid (players room) with
      | None => ret tt
      | Some (i, playerToRename) =>
          let oldName := name playerToRename in
          put_room currentRoomCode
            (set_players (<[i := set_name newName playerToRename]> (players room)) room) ;;
          addToLog env currentRoomCode (oldName +:+ " changed name to " +:+ newName) ;;
          broadcastGameState currentRoomCode
      end
  end.

Definition reset_player (p : Player) : Player :=
  set_commanderDamage ∅ (set_life 40 p).

Definition case_RESET_GAME (w : N) (env : Env) : M unit :=
  let! code := get_currentRoomCode w in
  let! cur := current_room code in
  match cur with
  | None => ret tt
  | Some (currentRoomCode, room) =>
      put_room currentRoomCode (mkRoom (reset_player <$> players room) []) ;;
      addToLog env currentRoomCode "Game reset" ;;
      broadcastGameState currentRoomCode
  end.

Definition dispatch (w : N) (playerId : string) (env : Env) (frame : Frame) : M unit :=
  match frame with
  | Malformed => throw
  | JsonNull => throw
  | Json data =>
      match data with
      | CREATE_ROOM => case_CREATE_ROOM w playerId env
      | JOIN_ROOM joinCode => case_JOIN_ROOM w playerId env joinCode
      | UPDATE_LIFE pid newLife => case_UPDATE_LIFE w env pid newLife
      | UPDATE_COMMANDER_DAMAGE src tgt damage =>
          case_UPDATE_COMMANDER_DAMAGE w env src tgt damage
      | UPDATE_NAME pid newName => case_UPDATE_NAME w env pid newName
      | RESET_GAME => case_RESET_GAME w env
      | OTHER => ret tt
      end
  end.

(** [ws.on('message', ...)]: the whole body sits in one try/catch. *)
Definition on_message (w : N) (playerId : string) (env : Env) (frame : Frame) : M unit :=
  try_catch (dispatch w playerId env frame)
            (send w (ERROR "Invalid message format")).

(** [ws.on('close', ...)], run with the closure's [playerId] and
    [currentRoomCode]; no try/catch surrounds it. *)
Definition on_close (playerId : string) (code : option string) (env : Env) : M unit :=
  let! cur := current_room code in
  match cur with
  | None => ret tt
  | Some (currentRoomCode, room) =>
      let disconnectedPlayer := find_player playerId (players room) in
      let playerName :=
        match disconnectedPlayer with
        | Some (_, p) => name p
        | None => playerId
        end in
      let remaining := filter (λ p, id p ≠ playerId) (players room) in
      put_room currentRoomCode (set_players remaining room) ;;
      if bool_decide (length remaining = 0%nat)
      then delete_room currentRoomCode
      else
        addToLog env currentRoomCode (playerName +:+ " left the game") ;;
        broadcastGameState currentRoomCode
  end.

(** [wss.on('connection', ...)]: a fresh closure for the new socket. *)
Definition on_connection : M unit :=
  let! w := gets playerIdCounter in
  let! playerId := generatePlayerId in
  modify (λ s, set_conns (<[w := mkConn playerId None]> (conns s)) s).

(** ** The server as a state machine *)

(** An exception that leaves a handler is an uncaught exception of the
    process: the server is gone. *)
Definition top_level (m : M unit) (s : Server) : option (Server * list Output) :=
  match m s with
  | (s', out, Some _) => Some (s', out)
  | (_, _, None) => None
  end.

Definition step (s : Server) (ev : event) : option (Server * list Output) :=
  match ev with
  | Connect => top_level on_connection s
  | Message w env frame =>
      match conns s !! w with
      | None => Some (s, [])
      | Some c => top_level (on_message w (playerId c) env frame) s
      end
  | Close w env =>
      match conns s !! w with
      | None => Some (s, [])
      | Some c =>
          top_level (on_close (playerId c) (currentRoomCode c) env)
                    (set_conns (delete w (conns s)) s)
      end
  end.

Definition init : Server := mkServer ∅ 1 ∅.

Fixpoint run (evs : list event) (s : Server) : option (Server * list Output) :=
  match evs with
  | [] => Some (s, [])
  | ev :: evs' =>
      match step s ev with
      | None => None
      | Some (s1, o1) =>
          match run evs' s1 with
          | None => None
          | Some (s2, o2) => Some (s2, o1 ++ o2)
          end
      end
  end.

(** States reached from [init] by events that each satisfy [ok] in the state
    they arrive in. *)
Inductive reachable_when (ok : Server → event → bool) : Server → Prop :=
  | reach_init : reachable_when ok init
  | reach_step s ev s' out :
      reachable_when ok s →
      ok s ev = true →
      step s ev = Some (s', out) →
      reachable_when ok s'.

Definition any_event (_ : Server) (_ : event) : bool := true.

Definition reachable : Server → Prop := reachable_when any_event.

(** ** The earlier copy of the server

    The repository also carries an earlier version of the server.  Its
    CREATE_ROOM, JOIN_ROOM, UPDATE_LIFE, UPDATE_NAME and RESET_GAME cases are
    the ones above; it differs in three places: the message handler has no
    try/catch (and no default case), UPDATE_COMMANDER_DAMAGE only stores the
    damage and logs it, and the close handler logs nothing. *)
Module Legacy.

Definition case_UPDATE_COMMANDER_DAMAGE (w : N) (env : Env)
    (sourcePlayerId targetPlayerId : string) (damage : Z) : M unit :=
  let! code := get_currentRoomCode w in
  let! cur := current_room code in
  match cur with
  | None => ret tt
  | Some (currentRoomCode, room) =>
      match find_player targetPlayerId (players room),
            find_player sourcePlayerId (players room) with
      | Some (i, targetPlayer), Some (_, sourcePlayer) =>
          let target' :=
            set_commanderDamage
              (<[sourcePlayerId := damage]> (commanderDamage targetPlayer))
              targetPlayer in
          put_room currentRoomCode
            (set_players (<[i := target']> (players room)) room) ;;
          addToLog env currentRoomCode
            (name sourcePlayer +:+ " dealt " +:+ pretty damage
               +:+ " commander damage to " +:+ name targetPlayer) ;;
          broadcastGameState currentRoomCode
      | _, _ => ret tt
      end
  end.

(** [ws.on('message', ...)] of the earlier copy: [JSON.parse] and the switch
    run unguarded. *)
Definition on_message (w : N) (playerId : string) (env : Env) (frame : Frame) : M unit :=
  match frame with
  | Malformed => throw
  | JsonNull => throw
  | Json data =>
      match data with
      | CREATE_ROOM => case_CREATE_ROOM w playerId env
      | JOIN_ROOM joinCode => case_JOIN_ROOM w playerId env joinCode
      | UPDATE_LIFE pid newLife => case_UPDATE_LIFE w env pid newLife
      | UPDATE_COMMANDER_DAMAGE src tgt damage =>
          case_UPDATE_COMMANDER_DAMAGE w env src tgt damage
      | UPDATE_NAME pid newName => case_UPDATE_NAME w env pid newName
      | RESET_GAME => case_RESET_GAME w env
      | OTHER => ret tt
      end
  end.

Definition on_close (playerId : string) (code : option string) : M unit :=
  let! cur := current_room code in
  match cur with
  | None => ret tt
  | Some (currentRoomCode, room) =>
      let remaining := filter (λ p, id p ≠ playerId) (players room) in
      put_room currentRoomCode (set_players remaining room) ;;
      if bool_decide (length remaining = 0%nat)
      then delete_room currentRoomCode
      else broadcastGameState currentRoomCode
  end.

Definition step (s : Server) (ev : event) : option (Server * list Output) :=
  match ev with
  | Connect => top_level on_connection s
  | Message w env frame =>
      match conns s !! w with
      | None => Some (s, [])
      | Some c => top_level (on_message w (playerId c) env frame) s
      end
  | Close w _ =>
      match conns s !! w with
      | None => Some (s, [])
      | Some c =>
          top_level (on_close (playerId c) (currentRoomCode c))
                    (set_conns (delete w (conns s)) s)
      end
  end.

End Legacy.

(** ** The status endpoint *)

Record Status : Type := mkStatus {
  status : string;
  activeRooms : nat;
  totalPlayers : nat
}.

(** [app.get('/')]: the number of keys of [rooms], and the sum of the
    lengths of the player lists (a sum, so the order in which
    [Object.values] visits the rooms does not matter). *)
Definition health (s : Server) : Status :=
  mkStatus "bigtable Life Tracker Server Running"
    (size (rooms s))
    (map_fold (λ _ room total, (total + length (players room))%nat) 0%nat (rooms s)).

(** ** The client

    The React component of the app, reduced to its state variables, the
    [onmessage] and [onclose] callbacks of its socket, and the handlers of
    the buttons of the game screen.  [Alert] dialogs are returned as a list
    of strings. *)
Module Client.

Record State : Type := mkState {
  connected : bool;
  roomCode : string;
  inputRoomCode : string;
  gameState : option GameState;
  myPlayerId : string;
  showLog : bool;
  showCommanderDamage : bool;
  selectedPlayer : option PlayerJson
}.

Definition initial : State := mkState false "" "" None "" false false None.

(** [ws.current.onmessage]: only the setters named in each case run. *)
Definition onmessage (data : ServerMsg) (c : State) : State * list string :=
  match data with
  | ROOM_CREATED code pid gs =>
      (mkState (connected c) code (inputRoomCode c) gs pid
         (showLog c) (showCommanderDamage c) (selectedPlayer c), [])
  | ROOM_JOINED pid gs =>
      (mkState (connected c) (roomCode c) (inputRoomCode c) gs pid
         (showLog c) (showCommanderDamage c) (selectedPlayer c), [])
  | GAME_UPDATE gs =>
      (mkState (connected c) (roomCode c) (inputRoomCode c) gs (myPlayerId c)
         (showLog c) (showCommanderDamage c) (selectedPlayer c), [])
  | ERROR msg => (c, [msg])
  end.

(** [ws.current.onclose] *)
Definition onclose (c : State) : State :=
  mkState false "" (inputRoomCode c) None (myPlayerId c)
    (showLog c) (showCommanderDamage c) (selectedPlayer c).

(** The frames of a socket, handled one after the other. *)
Definition receive (frames : list ServerMsg) (c : State) : State :=
  fold_left (λ c' data, (onmessage data c').1) frames c.

Definition find_json (pid : string) (l : list PlayerJson) : option PlayerJson :=
  snd <$> list_find (λ p, pj_id p = pid) l.

(** [const myPlayer = gameState ? gameState.players.find(...) : null] *)
Definition myPlayer (c : State) : option PlayerJson :=
  gs ← gameState c; find_json (myPlayerId c) (gs_players gs).

(** What a handler of the game screen does with the socket. *)
Inductive Action : Type :=
  | Sends (data : ClientMsg)
  | Nothing
  | TypeError.

(** [updateLife(playerId, change)]; reading [players] of a [null] game state
    throws. *)
Definition updateLife (pid : string) (change : Z) (c : State) : Action :=
  match gameState c with
  | None => TypeError
  | Some gs =>
      match find_json pid (gs_players gs) with
      | None => Nothing
      | Some player => Sends (UPDATE_LIFE pid (Z.max 0 (pj_life player + change)))
      end
  end.

(** The "-" and "+" buttons of a life counter. *)
Definition life_minus (c : State) : Action :=
  match myPlayer c with
  | Some me => updateLife (pj_id me) (-1) c
  | None => Nothing
  end.

Definition life_plus (c : State) : Action :=
  match myPlayer c with
  | Some me => updateLife (pj_id me) 1 c
  | None => Nothing
  end.

(** Tapping the card of another player: [setSelectedPlayer(player)] and
    [setShowCommanderDamage(true)]. *)
Definition select_player (player : PlayerJson) (c : State) : State :=
  mkState (connected c) (roomCode c) (inputRoomCode c) (gameState c)
    (myPlayerId c) (showLog c) true (Some player).

(** [selectedPlayer.commanderDamage[myPlayer.id] || 0] *)
Definition current_damage (me selected : PlayerJson) : Z :=
  damage_or_zero (pj_commanderDamage selected) (pj_id me).

(** The "-" and "+" buttons of the commander-damage dialog; they can be
    pressed only while the dialog is shown, and are rendered only when
    [myPlayer] and [selectedPlayer] are both set. *)
Definition damage_minus (c : State) : Action :=
  match showCommanderDamage c, myPlayer c, selectedPlayer c with
  | true, Some me, Some selected =>
      let current := current_damage me selected in
      if bool_decide (0 < current)
      then Sends (UPDATE_COMMANDER_DAMAGE (pj_id me) (pj_id selected) (current - 1))
      else Nothing
  | _, _, _ => Nothing
  end.

Definition damage_plus (c : State) : Action :=
  match showCommanderDamage c, myPlayer c, selectedPlayer c with
  | true, Some me, Some selected =>
      let current := current_damage me selected in
      Sends (UPDATE_COMMANDER_DAMAGE (pj_id me) (pj_id selected) (current + 1))
  | _, _, _ => Nothing
  end.

End Client.

(** * Part II: the notions the statements use *)

(** ** Final state, sent frames and value of a computation *)

Definition exec {A} (m : M A) (s : Server) : Server := (m s).1.1.
Definition outputs {A} (m : M A) (s : Server) : list Output := (m s).1.2.
Definition result {A} (m : M A) (s : Server) : option A := (m s).2.

(** ** The handlers as transitions of one room *)

Definition logged (env : Env) (msg : string) (room : Room) : Room :=
  set_gameLog (push_shift (mkLogEntry (now env) msg) (gameLog room)) room.

Definition creator_of (w : N) (playerId : string) : Player :=
  mkPlayer playerId "Player 1" 40 (playerColors !! 0%nat) ∅ w.

Definition room_created (w : N) (playerId : string) (env : Env) : Room :=
  logged env "Player 1 created the game" (mkRoom [creator_of w playerId] []).

Definition joiner_of (w : N) (playerId : string) (room : Room) : Player :=
  mkPlayer playerId ("Player " +:+ pretty (length (players room) + 1)%nat) 40
    (playerColors !! length (players room)) ∅ w.

Definition room_joined (w : N) (playerId : string) (env : Env) (room : Room) : Room :=
  logged env (name (joiner_of w playerId room) +:+ " joined the game")
    (set_players (players room ++ [joiner_of w playerId room]) room).

Definition room_update_life (env : Env) (pid : string) (newLife : Z) (room : Room) : Room :=
  match find_player pid (players room) with
  | None => room
  | Some (i, player) =>
      logged env (life_message player newLife)
        (set_players (<[i := set_life newLife player]> (players room)) room)
  end.

Definition room_commander_damage (env : Env) (sourcePlayerId targetPlayerId : string)
    (damage : Z) (room : Room) : Room :=
  match find_player targetPlayerId (players room),
        find_player sourcePlayerId (players room) with
  | Some (i, targetPlayer), Some (_, sourcePlayer) =>
      let damageDifference :=
        damage - damage_or_zero (commanderDamage targetPlayer) sourcePlayerId in
      let target' := apply_commander_damage sourcePlayerId damage targetPlayer in
      let room' := set_players (<[i := target']> (players room)) room in
      match damage_message sourcePlayer targetPlayer (life target')
              damage damageDifference with
      | Some msg => logged env msg room'
      | None => room'
      end
  | _, _ => room
  end.

Definition room_update_name (env : Env) (pid newName : string) (room : Room) : Room :=
  match find_player pid (players room) with
  | None => room
  | Some (i, playerToRename) =>
      logged env (name playerToRename +:+ " changed name to " +:+ newName)
        (set_players (<[i := set_name newName playerToRename]> (players room)) room)
  end.

Definition room_reset (env : Env) (room : Room) : Room :=
  logged env "Game reset" (mkRoom (reset_player <$> players room) []).

Definition leaver_name (playerId : string) (room : Room) : string :=
  match find_player playerId (players room) with
  | Some (_, p) => name p
  | None => playerId
  end.

Definition remaining_players (playerId : string) (room : Room) : list Player :=
  filter (λ p, id p ≠ playerId) (players room).

(** [None]: the room is deleted. *)
Definition room_left (env : Env) (playerId : string) (room : Room) : option Room :=
  if bool_decide (length (remaining_players playerId room) = 0%nat) then None
  else Some (logged env (leaver_name playerId room +:+ " left the game")
               (set_players (remaining_players playerId room) room)).

(** The room a handler works on after its guard on [currentRoomCode]. *)
Definition room_of_code (s : Server) (code : option string) : option (string * Room) :=
  c ← code;
  if bool_decide (c = "") then None else pair c <$> rooms s !! c.

Definition room_of (s : Server) (w : N) : option (string * Room) :=
  room_of_code s (c ← conns s !! w; currentRoomCode c).

Definition update_current (s : Server) (w : N) (f : Room → Room) : Server :=
  match room_of s w with
  | Some (code, room) => set_rooms (<[code := f room]> (rooms s)) s
  | None => s
  end.

(** The state after a message, as a function of the state before it. *)
Definition after_message (w : N) (playerId : string) (env : Env) (frame : Frame)
    (s : Server) : Server :=
  match frame with
  | Json CREATE_ROOM =>
      mkServer (<[generateRoomCode env := room_created w playerId env]> (rooms s))
        (playerIdCounter s)
        (<[w := mkConn playerId (Some (generateRoomCode env))]> (conns s))
  | Json (JOIN_ROOM joinCode) =>
      match rooms s !! joinCode with
      | Some room =>
          if bool_decide (6 ≤ length (players room))%nat then s
          else mkServer (<[joinCode := room_joined w playerId env room]> (rooms s))
                 (playerIdCounter s)
                 (<[w := mkConn playerId (Some joinCode)]> (conns s))
      | None => s
      end
  | Json (UPDATE_LIFE pid newLife) =>
      update_current s w (room_update_life env pid newLife)
  | Json (UPDATE_COMMANDER_DAMAGE src tgt damage) =>
      update_current s w (room_commander_damage env src tgt damage)
  | Json (UPDATE_NAME pid newName) =>
      update_current s w (room_update_name env pid newName)
  | Json RESET_GAME => update_current s w (room_reset env)
  | Json OTHER | Malformed | JsonNull => s
  end.

Definition after_close (playerId : string) (code : option string) (env : Env)
    (s : Server) : Server :=
  match room_of_code s code with
  | Some (c, room) =>
      match room_left env playerId room with
      | Some room' => set_rooms (<[c := room']> (rooms s)) s
      | None => set_rooms (delete c (rooms s)) s
      end
  | None => s
  end.

(** The state after any event that the process survives. *)
Definition next (s : Server) (ev : event) : Server :=
  match ev with
  | Connect =>
      mkServer (rooms s) (playerIdCounter s + 1)
        (<[playerIdCounter s :=
             mkConn ("player" +:+ pretty (playerIdCounter s)) None]> (conns s))
  | Message w env frame =>
      match conns s !! w with
      | Some c => after_message w (playerId c) env frame s
      | None => s
      end
  | Close w env =>
      match conns s !! w with
      | Some c =>
          after_close (playerId c) (currentRoomCode c) env
            (set_conns (delete w (conns s)) s)
      | None => s
      end
  end.

(** ** Invariants and reachability *)

Definition room_inv (P : Room → Prop) (s : Server) : Prop :=
  ∀ code room, rooms s !! code = Some room → P room.

(** Events whose message, if any, satisfies [allowed]. *)
Definition allowed_event (allowed : ClientMsg → bool) (_ : Server) (ev : event) : bool :=
  match ev with
  | Message _ _ (Json data) => allowed data
  | _ => true
  end.


Fixpoint trace_ok (ok : Server → event → bool) (evs : list event) (s : Server) : bool :=
  match evs with
  | [] => true
  | ev :: evs' =>
      ok s ev &&
      match step s ev with
      | Some (s1, _) => trace_ok ok evs' s1
      | None => false
      end
  end.

Definition state_after (evs : list event) : Server :=
  match run evs init with
  | Some (s, _) => s
  | None => init
  end.

Definition within_capacity (room : Room) : Prop := (length (players room) ≤ 6)%nat.

Definition any_message (_ : ClientMsg) : bool := true.






Definition codes_ok (s : Server) : Prop :=
  (∀ code room, rooms s !! code = Some room → String.length code = 6%nat)
  ∧ (∀ w c code,
       conns s !! w = Some c → currentRoomCode c = Some code →
       String.length code = 6%nat).


Definition pid_of (w : N) : string := "player" +:+ pretty w.

(** The (id, socket) pairs of the players of a room, in order. *)
Definition owners (room : Room) : list (string * N) :=
  (λ p, (id p, ws p)) <$> players room.



(** The sockets written to by a step, in order. *)
Definition recipients (r : Server * list Output) : list N :=
  (λ o, match o with Send w _ => w end) <$> r.2.

(** ** What the server sends *)

(** The game state [getGameState] builds for a room. *)
Definition snapshot (room : Room) : GameState :=
  mkGameState (player_json <$> players room) (gameLog room).

(** The frames of [broadcastGameState] for a room: one GAME_UPDATE per player
    whose socket is open, in the order of the player list. *)
Definition broadcast_out (s : Server) (room : Room) : list Output :=
  (λ p, Send (ws p) (GAME_UPDATE (Some (snapshot room))))
    <$> filter (λ p, is_Some (conns s !! ws p)) (players room).

(** The frames written to socket [w], in order. *)
Definition inbox (w : N) (out : list Output) : list ServerMsg :=
  omap (λ o, match o with Send w' m => if decide (w' = w) then Some m else None end) out.

(** ** Codes, ids and membership *)

(** Six characters, each one of [chars]. *)
Definition room_code (code : string) : Prop :=
  String.length code = 6%nat
  ∧ Forall (λ a, a ∈ String.list_ascii_of_string chars) (String.list_ascii_of_string code).

(** Every key of the registry, and every [currentRoomCode], satisfies
    [Pcode]. *)
Definition codes_satisfy (Pcode : string → Prop) (s : Server) : Prop :=
  (∀ code room, rooms s !! code = Some room → Pcode code)
  ∧ (∀ w c code,
       conns s !! w = Some c → currentRoomCode c = Some code → Pcode code).

(** Every id in use was issued by [generatePlayerId] to the socket that
    carries it, before the current value of the counter. *)
Definition ids_issued (s : Server) : Prop :=
  (∀ w c, conns s !! w = Some c → playerId c = pid_of w ∧ (w < playerIdCounter s)%N)
  ∧ (∀ code room pr,
       rooms s !! code = Some room → pr ∈ owners room →
       pr.1 = pid_of pr.2 ∧ (pr.2 < playerIdCounter s)%N).

Definition occupied (room : Room) : Prop :=
  players room ≠ [] ∧ gameLog room ≠ [].

(** The messages that change fields of players but not who is in a room. *)
Definition is_update (data : ClientMsg) : bool :=
  match data with
  | UPDATE_LIFE _ _ | UPDATE_COMMANDER_DAMAGE _ _ _ | UPDATE_NAME _ _ | RESET_GAME => true
  | _ => false
  end.

(** ** The client's view *)

(** The client state after [setGameState(gs)]. *)
Definition shows (gs : option GameState) (c : Client.State) : Client.State :=
  Client.mkState (Client.connected c) (Client.roomCode c) (Client.inputRoomCode c)
    gs (Client.myPlayerId c) (Client.showLog c) (Client.showCommanderDamage c)
    (Client.selectedPlayer c).

(** The two buttons of the commander-damage dialog. *)
Definition damage_button (plus : bool) : Client.State → Client.Action :=
  if plus then Client.damage_plus else Client.damage_minus.

(** ** Concrete scenarios *)

(** Two environments: the draws of [noon] spell "ABCDEF", those of [later]
    spell "GHIJKL". *)
Definition noon : Env := mkEnv (λ i, i) "12:00:00 PM".

Definition later : Env := mkEnv (λ i, (i + 6)%nat) "12:05:00 PM".

(** A table of six: connection 1 creates room "ABCDEF", connections 2 to 6
    join it, and connection 7 has just connected. *)
Definition full_table : list event :=
  [ Connect; Message 1 noon (Json CREATE_ROOM);
    Connect; Message 2 noon (Json (JOIN_ROOM "ABCDEF"));
    Connect; Message 3 noon (Json (JOIN_ROOM "ABCDEF"));
    Connect; Message 4 noon (Json (JOIN_ROOM "ABCDEF"));
    Connect; Message 5 noon (Json (JOIN_ROOM "ABCDEF"));
    Connect; Message 6 noon (Json (JOIN_ROOM "ABCDEF"));
    Connect ].

Definition full_room : Room :=
  Eval vm_compute in default (mkRoom [] []) (rooms (state_after full_table) !! "ABCDEF").



(** Two players; player 1 takes 100 commander damage from player 2 and is
    clamped at 0. *)
Definition lethal_damage : list event :=
  [ Connect; Message 1 noon (Json CREATE_ROOM);
    Connect; Message 2 noon (Json (JOIN_ROOM "ABCDEF"));
    Message 1 noon (Json (UPDATE_LIFE "player1" 35));
    Message 2 noon (Json (UPDATE_COMMANDER_DAMAGE "player2" "player1" 100)) ].

Definition lethal_room : Room :=
  Eval vm_compute in
    default (mkRoom [] []) (rooms (state_after lethal_damage) !! "ABCDEF").



(** Connection 1 alone in its room; and connections 1 and 2 in one room. *)
Definition solo : list event :=
  [ Connect; Message 1 noon (Json CREATE_ROOM) ].

Definition duo : list event :=
  [ Connect; Message 1 noon (Json CREATE_ROOM);
    Connect; Message 2 noon (Json (JOIN_ROOM "ABCDEF")) ].

Definition solo_room : Room :=
  Eval vm_compute in default (mkRoom [] []) (rooms (state_after solo) !! "ABCDEF").

Definition duo_room : Room :=
  Eval vm_compute in default (mkRoom [] []) (rooms (state_after duo) !! "ABCDEF").

(** The client of connection 1 at the table of [duo], after tapping the card
    of player 2. *)
Definition dialog_open : Client.State :=
  Client.select_player (mkPlayerJson "player2" "Player 2" 40 (Some "#4ECDC4") ∅)
    (Client.mkState true "ABCDEF" "" (Some (snapshot duo_room)) "player1"
       false false None).

(** Connection 1 creates "ABCDEF", connection 2 creates "GHIJKL", and
    connection 1 then joins "GHIJKL" without having left "ABCDEF". *)
Definition two_rooms : list event :=
  [ Connect; Message 1 noon (Json CREATE_ROOM);
    Connect; Message 2 later (Json CREATE_ROOM);
    Message 1 noon (Json (JOIN_ROOM "GHIJKL")) ].

(** The walk-through of the specification: create, join, a life change, a
    commander-damage update, and a reset. *)
Definition walk_through : list event :=
  [ Connect; Message 1 noon (Json CREATE_ROOM);
    Connect; Message 2 noon (Json (JOIN_ROOM "ABCDEF"));
    Message 1 noon (Json (UPDATE_LIFE "player1" 35));
    Message 1 noon (Json (UPDATE_COMMANDER_DAMAGE "player1" "player2" 3)) ].

(** * Part III: proofs *)

(** ** Running the monad: basic facts *)

Lemma forEach_state {A} (l : list A) (f : A → M unit) (s : Server) :
  (∀ x s0, exec (f x) s0 = s0) → exec (forEach l f) s = s.
Proof.
  intros Hf. revert s. induction l as [|x l IH]; intros s; [done|].
  unfold exec in *. cbn. unfold bind.
  specialize (Hf x s). destruct (f x s) as [[s1 o1] [[]|]]; cbn in *; subst; [|done].
  specialize (IH s). by destruct (forEach l f s) as [[s2 o2] r].
Qed.

Lemma exec_bind {A B} (m : M A) (f : A → M B) s :
  exec (bind m f) s =
  match result m s with
  | Some a => exec (f a) (exec m s)
  | None => exec m s
  end.
Proof.
  unfold exec, result, bind. destruct (m s) as [[s1 o1] [a|]]; cbn; [|done].
  by destruct (f a s1) as [[s2 o2] r].
Qed.

Lemma room_at_state code s : exec (room_at code) s = s.
Proof. unfold exec, room_at. by repeat case_match. Qed.

Lemma getGameState_state code s : exec (getGameState code) s = s.
Proof.
  unfold getGameState. rewrite exec_bind, room_at_state.
  by repeat case_match.
Qed.

Lemma broadcastGameState_state roomCode s :
  exec (broadcastGameState roomCode) s = s.
Proof.
  unfold broadcastGameState. rewrite exec_bind, room_at_state.
  destruct (result (room_at roomCode) s) as [[room|]|]; [|done..].
  rewrite exec_bind, getGameState_state.
  destruct (result (getGameState roomCode) s) as [gameState|]; [|done].
  apply forEach_state. intros x s0.
  unfold exec, bind, readyState_OPEN, gets, try_catch, send, ret. cbn.
  by case_bool_decide.
Qed.

Lemma broadcastGameState_run roomCode s s' out r :
  broadcastGameState roomCode s = (s', out, r) → s' = s.
Proof.
  intros H. pose proof (broadcastGameState_state roomCode s) as Hs.
  unfold exec in Hs. by rewrite H in Hs.
Qed.

Global Arguments broadcastGameState : simpl never.
Global Arguments generateRoomCode : simpl never.
Global Arguments push_shift : simpl never.
Global Arguments pretty : simpl never.

(** Symbolic execution of a handler in a hypothesis or in the goal. *)
Ltac unfold_handlers :=
  unfold exec, result, outputs, on_connection, on_message, on_close, dispatch,
    case_CREATE_ROOM, case_JOIN_ROOM, case_UPDATE_LIFE,
    case_UPDATE_COMMANDER_DAMAGE, case_UPDATE_NAME, case_RESET_GAME,
    current_room, push_player, addToLog, getGameState, generatePlayerId,
    get_currentRoomCode, set_currentRoomCode, put_room, delete_room, room_at,
    try_catch, bind, ret, throw, gets, modify, send in *.

Ltac broadcast_states :=
  repeat match goal with
  | H : broadcastGameState _ _ = (_, _, _) |- _ =>
      apply broadcastGameState_run in H; subst
  end.

Ltac run_handler :=
  unfold_handlers; cbn in *;
  repeat (first
    [ progress rewrite lookup_insert_eq in *
    | progress rewrite insert_insert_eq in *
    | progress cbn in *
    | case_match; simplify_eq/=; broadcast_states ]).

Lemma set_rooms_id s : set_rooms (rooms s) s = s.
Proof. by destruct s. Qed.

Ltac finish_exec :=
  try done;
  try (rewrite insert_id by done);
  try (symmetry; apply set_rooms_id);
  try done.

Lemma on_connection_exec s :
  exec on_connection s
  = mkServer (rooms s) (playerIdCounter s + 1)
      (<[playerIdCounter s :=
           mkConn ("player" +:+ pretty (playerIdCounter s)) None]> (conns s)).
Proof. by run_handler. Qed.

Lemma case_CREATE_ROOM_exec w playerId env s :
  exec (case_CREATE_ROOM w playerId env) s
  = mkServer (<[generateRoomCode env := room_created w playerId env]> (rooms s))
      (playerIdCounter s)
      (<[w := mkConn playerId (Some (generateRoomCode env))]> (conns s)).
Proof. unfold room_created, logged, creator_of. by run_handler. Qed.

Lemma case_JOIN_ROOM_exec w playerId env joinCode s :
  exec (case_JOIN_ROOM w playerId env joinCode) s
  = match rooms s !! joinCode with
    | Some room =>
        if bool_decide (6 ≤ length (players room))%nat then s
        else mkServer (<[joinCode := room_joined w playerId env room]> (rooms s))
               (playerIdCounter s)
               (<[w := mkConn playerId (Some joinCode)]> (conns s))
    | None => s
    end.
Proof. unfold room_joined, logged, joiner_of. by run_handler. Qed.

Lemma case_UPDATE_LIFE_exec w env pid newLife s :
  exec (case_UPDATE_LIFE w env pid newLife) s
  = update_current s w (room_update_life env pid newLife).
Proof.
  unfold update_current, room_of, room_of_code, room_update_life, logged.
  run_handler; finish_exec.
Qed.

Lemma case_UPDATE_COMMANDER_DAMAGE_exec w env src tgt damage s :
  exec (case_UPDATE_COMMANDER_DAMAGE w env src tgt damage) s
  = update_current s w (room_commander_damage env src tgt damage).
Proof.
  unfold update_current, room_of, room_of_code, room_commander_damage, logged.
  run_handler; finish_exec.
Qed.

Lemma case_UPDATE_NAME_exec w env pid newName s :
  exec (case_UPDATE_NAME w env pid newName) s
  = update_current s w (room_update_name env pid newName).
Proof.
  unfold update_current, room_of, room_of_code, room_update_name, logged.
  run_handler; finish_exec.
Qed.

Lemma case_RESET_GAME_exec w env s :
  exec (case_RESET_GAME w env) s = update_current s w (room_reset env).
Proof.
  unfold update_current, room_of, room_of_code, room_reset, logged.
  run_handler; finish_exec.
Qed.

Lemma on_close_exec playerId code env s :
  exec (on_close playerId code env) s
  = match room_of_code s code with
    | Some (c, room) =>
        match room_left env playerId room with
        | Some room' => set_rooms (<[c := room']> (rooms s)) s
        | None => set_rooms (delete c (rooms s)) s
        end
    | None => s
    end.
Proof.
  unfold room_of_code, room_left, remaining_players, leaver_name, logged.
  run_handler; finish_exec.
  all: try (by rewrite delete_insert_eq).
Qed.

Lemma try_catch_send_exec (m : M unit) w msg s :
  exec (try_catch m (send w msg)) s = exec m s.
Proof. unfold exec, try_catch, send. by destruct (m s) as [[s1 o1] [[]|]]. Qed.

Lemma try_catch_send_result (m : M unit) w msg s :
  result (try_catch m (send w msg)) s = Some tt.
Proof. unfold result, try_catch, send. by destruct (m s) as [[s1 o1] [[]|]]. Qed.

Lemma on_message_exec w playerId env frame s :
  exec (on_message w playerId env frame) s = after_message w playerId env frame s.
Proof.
  unfold on_message. rewrite try_catch_send_exec.
  destruct frame as [| |[]]; cbn [dispatch after_message]; try done.
  - apply case_CREATE_ROOM_exec.
  - apply case_JOIN_ROOM_exec.
  - apply case_UPDATE_LIFE_exec.
  - apply case_UPDATE_COMMANDER_DAMAGE_exec.
  - apply case_UPDATE_NAME_exec.
  - apply case_RESET_GAME_exec.
Qed.

(** Nothing escapes the try/catch of the message handler. *)
Lemma on_message_result w playerId env frame s :
  result (on_message w playerId env frame) s = Some tt.
Proof. apply try_catch_send_result. Qed.

Lemma top_level_Some (m : M unit) s s' out :
  top_level m s = Some (s', out) ↔
  exec m s = s' ∧ outputs m s = out ∧ result m s = Some tt.
Proof.
  unfold top_level, exec, outputs, result.
  destruct (m s) as [[s1 o1] [[]|]]; cbn; split; try done.
  - by intros [= <- <-].
  - by intros (<- & <- & _).
  - by intros (_ & _ & ?).
Qed.

Lemma top_level_total (m : M unit) s :
  result m s = Some tt → top_level m s = Some (exec m s, outputs m s).
Proof. intros H. by apply top_level_Some. Qed.

Lemma step_Message s w c env frame :
  conns s !! w = Some c →
  step s (Message w env frame)
  = Some (after_message w (playerId c) env frame s,
          outputs (on_message w (playerId c) env frame) s).
Proof.
  intros Hc. unfold step. rewrite Hc, top_level_total by apply on_message_result.
  by rewrite on_message_exec.
Qed.

Lemma step_next s ev s' out : step s ev = Some (s', out) → s' = next s ev.
Proof.
  destruct ev as [|w env frame|w env]; unfold step, next.
  - intros (<- & _ & _)%top_level_Some. apply on_connection_exec.
  - destruct (conns s !! w) as [c|] eqn:Hc; [|naive_solver].
    intros (<- & _ & _)%top_level_Some. apply on_message_exec.
  - destruct (conns s !! w) as [c|] eqn:Hc; [|naive_solver].
    intros (<- & _ & _)%top_level_Some. apply on_close_exec.
Qed.

(** ** Invariants that hold room by room *)

Lemma room_inv_insert P s code room :
  room_inv P s → P room → room_inv P (set_rooms (<[code := room]> (rooms s)) s).
Proof.
  intros Hs Hr c r. cbn. rewrite lookup_insert. case_decide; naive_solver.
Qed.

Section room_invariant.
Variable P : Room → Prop.
Variable allowed : ClientMsg → bool.

Hypothesis P_created : ∀ w playerId env, P (room_created w playerId env).
Hypothesis P_joined : ∀ w playerId env room,
  P room → (length (players room) < 6)%nat → P (room_joined w playerId env room).
Hypothesis P_life : ∀ env pid newLife room,
  allowed (UPDATE_LIFE pid newLife) = true →
  P room → P (room_update_life env pid newLife room).
Hypothesis P_damage : ∀ env src tgt damage room,
  allowed (UPDATE_COMMANDER_DAMAGE src tgt damage) = true →
  P room → P (room_commander_damage env src tgt damage room).
Hypothesis P_name : ∀ env pid newName room,
  P room → P (room_update_name env pid newName room).
Hypothesis P_reset : ∀ env room, P room → P (room_reset env room).
Hypothesis P_left : ∀ env playerId room room',
  P room → room_left env playerId room = Some room' → P room'.

Lemma room_inv_update_current s w f :
  (∀ room, P room → P (f room)) →
  room_inv P s → room_inv P (update_current s w f).
Proof.
  intros Hf Hs. unfold update_current.
  destruct (room_of s w) as [[code room]|] eqn:Hr; [|done].
  apply room_inv_insert; [done|]. apply Hf.
  unfold room_of, room_of_code in Hr.
  destruct (conns s !! w ≫= _) as [c|]; simplify_eq/=.
  case_bool_decide; simplify_eq/=.
  destruct (rooms s !! c) eqn:?; simplify_eq/=. eauto.
Qed.

Lemma room_inv_next s ev :
  allowed_event allowed s ev = true → room_inv P s → room_inv P (next s ev).
Proof.
  intros Hok Hs. destruct ev as [|w env frame|w env]; cbn.
  - done.
  - destruct (conns s !! w) as [c|]; [|done].
    destruct frame as [| |[]]; cbn in *; try done.
    + intros code room. cbn. rewrite lookup_insert.
      case_decide; naive_solver.
    + destruct (rooms s !! roomCode) as [room|] eqn:Hr; [|done].
      case_bool_decide; [done|].
      intros code room'. cbn. rewrite lookup_insert.
      case_decide; [|by eauto]. intros [= <-].
      apply P_joined; [by eauto|lia].
    + apply room_inv_update_current; eauto.
    + apply room_inv_update_current; eauto.
    + apply room_inv_update_current; eauto.
    + apply room_inv_update_current; eauto.
  - destruct (conns s !! w) as [c|]; [|done].
    unfold after_close, room_of_code. cbn.
    destruct (currentRoomCode c) as [code|]; cbn; [|done].
    case_bool_decide; cbn; [done|].
    destruct (rooms s !! code) as [room|] eqn:Hr; cbn; [|done].
    destruct (room_left env (playerId c) room) as [room'|] eqn:Hl.
    + intros code' r. cbn. rewrite lookup_insert.
      case_decide; [|by eauto]. intros [= <-]. eauto.
    + intros code' r. cbn. rewrite lookup_delete.
      case_decide; [done|by eauto].
Qed.

Lemma room_inv_reachable s :
  reachable_when (allowed_event allowed) s → room_inv P s.
Proof.
  induction 1 as [|s ev s' out _ IH Hok Hstep].
  - intros code room. cbn. by rewrite lookup_empty.
  - apply step_next in Hstep as ->. by apply room_inv_next.
Qed.
End room_invariant.

(** ** Reachability, computed on concrete traces *)

Lemma reachable_when_mono (ok1 ok2 : Server → event → bool) s :
  (∀ s0 ev, ok1 s0 ev = true → ok2 s0 ev = true) →
  reachable_when ok1 s → reachable_when ok2 s.
Proof.
  intros Hsub. induction 1 as [|s ev s' out _ IH Hok Hstep].
  - constructor.
  - eapply reach_step; eauto.
Qed.

Lemma reachable_when_any ok s : reachable_when ok s → reachable s.
Proof. by apply reachable_when_mono. Qed.

Lemma reachable_run ok evs s :
  reachable_when ok s → trace_ok ok evs s = true →
  ∃ s' out, run evs s = Some (s', out) ∧ reachable_when ok s'.
Proof.
  revert s. induction evs as [|ev evs IH]; intros s Hs Hok; cbn in *.
  - eauto.
  - apply andb_prop in Hok as [Hev Hrest].
    destruct (step s ev) as [[s1 o1]|] eqn:Hstep; [|done].
    destruct (IH s1) as (s' & out & -> & Hs'); [by eapply reach_step|done|].
    eauto.
Qed.

Lemma reachable_state_after ok evs :
  trace_ok ok evs init = true → reachable_when ok (state_after evs).
Proof.
  intros Hok. unfold state_after.
  destruct (reachable_run ok evs init) as (s' & out & -> & Hs'); [constructor|done|done].
Qed.

(** ** Capacity of a room *)

Lemma logged_players env msg room : players (logged env msg room) = players room.
Proof. done. Qed.

Lemma find_player_Some pid l i p :
  find_player pid l = Some (i, p) →
  l !! i = Some p ∧ id p = pid ∧ ∀ j q, l !! j = Some q → (j < i)%nat → id q ≠ pid.
Proof. unfold find_player. by intros ?%list_find_Some. Qed.

Lemma find_player_None pid l :
  find_player pid l = None ↔ ∀ p, p ∈ l → id p ≠ pid.
Proof. unfold find_player. rewrite list_find_None, Forall_forall. done. Qed.

Lemma room_update_life_players env pid newLife room :
  length (players (room_update_life env pid newLife room)) = length (players room).
Proof.
  unfold room_update_life. destruct (find_player _ _) as [[i p]|]; [|done].
  cbn. by rewrite length_insert.
Qed.

Lemma room_commander_damage_players env src tgt damage room :
  length (players (room_commander_damage env src tgt damage room))
  = length (players room).
Proof.
  unfold room_commander_damage.
  destruct (find_player tgt _) as [[i t]|]; [|done].
  destruct (find_player src _) as [[j sp]|]; [|done].
  cbn. destruct (damage_message _ _ _ _ _); cbn; by rewrite length_insert.
Qed.

Lemma room_update_name_players env pid newName room :
  length (players (room_update_name env pid newName room)) = length (players room).
Proof.
  unfold room_update_name. destruct (find_player _ _) as [[i p]|]; [|done].
  cbn. by rewrite length_insert.
Qed.

Lemma room_left_players env playerId room room' :
  room_left env playerId room = Some room' →
  players room' = remaining_players playerId room.
Proof. unfold room_left. case_bool_decide; [done|]. by intros [= <-]. Qed.

Lemma capacity_reachable s :
  reachable s → room_inv within_capacity s.
Proof.
  intros Hs. apply (room_inv_reachable within_capacity any_message);
    unfold within_capacity.
  - intros. cbn. lia.
  - intros w pid env room Hr Hlt. cbn. rewrite length_app. cbn. lia.
  - intros. by rewrite room_update_life_players.
  - intros. by rewrite room_commander_damage_players.
  - intros. by rewrite room_update_name_players.
  - intros env room Hr. cbn. by rewrite length_fmap.
  - intros env pid room room' Hr ->%room_left_players.
    unfold remaining_players. etrans; [apply length_filter|done].
  - revert Hs. apply reachable_when_mono. intros s0 [|w env [| |d]|w env]; done.
Qed.

(** C1. In every state reached from the initial one by any events, every room
    of the registry holds at most 6 players; and a JOIN_ROOM for a room that
    holds 6 players (or more) is answered by the single reply
    Error "Room is full" and changes nothing in the server state. *)
Theorem room_never_exceeds_six :
  (∀ s code room,
     reachable s → rooms s !! code = Some room → (length (players room) ≤ 6)%nat)
  ∧ (∀ s w c env joinCode room,
       conns s !! w = Some c →
       rooms s !! joinCode = Some room →
       (6 ≤ length (players room))%nat →
       step s (Message w env (Json (JOIN_ROOM joinCode)))
       = Some (s, [Send w (ERROR "Room is full")])).
Proof.
  split.
  - intros s code room Hs Hr. by apply (capacity_reachable s Hs code room).
  - intros s w c env joinCode room Hc Hr Hfull.
    unfold step, top_level, on_message, dispatch, case_JOIN_ROOM, try_catch,
      bind, room_at, send.
    rewrite Hc, Hr. by rewrite bool_decide_eq_true_2.
Qed.

Lemma room_never_exceeds_six_witness :
  (length (players full_room) ≤ 6)%nat
  ∧ step (state_after full_table) (Message 7 noon (Json (JOIN_ROOM "ABCDEF")))
    = Some (state_after full_table, [Send 7 (ERROR "Room is full")]).
Proof.
  split.
  - apply (proj1 room_never_exceeds_six (state_after full_table) "ABCDEF" full_room).
    + apply (reachable_state_after any_event). vm_compute. reflexivity.
    + vm_compute. reflexivity.
  - apply (proj2 room_never_exceeds_six (state_after full_table) 7%N
             (mkConn "player7" None) noon "ABCDEF" full_room).
    + vm_compute. reflexivity.
    + vm_compute. reflexivity.
    + vm_compute. lia.
Defined.

(** ** The bounded log *)

Lemma push_shift_short e log :
  (length log < 50)%nat → push_shift e log = log ++ [e].
Proof.
  intros H. unfold push_shift. rewrite bool_decide_eq_false_2; [done|].
  rewrite length_app. cbn. lia.
Qed.

Lemma push_shift_long e log :
  (50 ≤ length log)%nat → push_shift e log = tail log ++ [e].
Proof.
  intros H. unfold push_shift. rewrite bool_decide_eq_true_2.
  - destruct log; [cbn in H; lia|done].
  - rewrite length_app. cbn. lia.
Qed.


Lemma push_shift_drop e log :
  (length log ≤ 50)%nat →
  push_shift e log = drop (length (log ++ [e]) - 50) (log ++ [e]).
Proof.
  intros H. rewrite length_app. cbn. destruct (decide (length log < 50)%nat).
  - rewrite push_shift_short by done.
    by replace (length log + 1 - 50)%nat with 0%nat by lia.
  - rewrite push_shift_long by lia.
    replace (length log + 1 - 50)%nat with 1%nat by lia.
    destruct log; [cbn in *; lia|done].
Qed.


Lemma addToLog_exec env roomCode msg s room :
  rooms s !! roomCode = Some room →
  addToLog env roomCode msg s
  = (set_rooms (<[roomCode := logged env msg room]> (rooms s)) s, [], Some tt).
Proof. intros H. unfold addToLog, bind, room_at, put_room, modify. by rewrite H. Qed.




(** ** Invariants that hold player by player *)

Section player_invariant.
Variable Q : Player → Prop.
Variable allowed : ClientMsg → bool.

Hypothesis Q_creator : ∀ w playerId, Q (creator_of w playerId).
Hypothesis Q_joiner : ∀ w playerId room, Q (joiner_of w playerId room).
Hypothesis Q_life : ∀ pid newLife p,
  allowed (UPDATE_LIFE pid newLife) = true → Q p → Q (set_life newLife p).
Hypothesis Q_damage : ∀ src tgt damage p,
  allowed (UPDATE_COMMANDER_DAMAGE src tgt damage) = true →
  Q p → Q (apply_commander_damage src damage p).
Hypothesis Q_name : ∀ newName p, Q p → Q (set_name newName p).
Hypothesis Q_reset : ∀ p, Q (reset_player p).

End player_invariant.

(** ** Life totals *)





(** ** Commander damage values *)




(** ** Commander damage: what one update does *)

Lemma damage_or_zero_default d key : damage_or_zero d key = default 0 (d !! key).
Proof.
  unfold damage_or_zero. destruct (d !! key) as [v|]; [|done].
  by case_bool_decide.
Qed.

(** Overwriting the object at position [i] by one with the same [id] moves
    no result of [find]. *)
Lemma find_player_insert pid l i p' :
  (∀ p, l !! i = Some p → id p' = id p) →
  find_player pid (<[i := p']> l)
  = (λ kq : nat * Player, (kq.1, if decide (kq.1 = i) then p' else kq.2))
      <$> find_player pid l.
Proof.
  unfold find_player. revert i. induction l as [|x l IH]; intros i Hid; [done|].
  destruct i as [|i]; cbn.
  - rewrite (Hid x) by done. case_decide; [done|].
    destruct (list_find _ l) as [[k q]|]; done.
  - case_decide; [done|]. rewrite IH by (intros p Hp; by apply Hid).
    destruct (list_find _ l) as [[k q]|]; [|done]. cbn.
    repeat case_decide; done || lia.
Qed.

Lemma find_player_insert_same pid l i p p' :
  find_player pid l = Some (i, p) → id p' = id p →
  find_player pid (<[i := p']> l) = Some (i, p').
Proof.
  intros Hf Hid. rewrite find_player_insert, Hf.
  - cbn. by rewrite decide_True.
  - apply find_player_Some in Hf as (Hi & _ & _). intros q Hq. congruence.
Qed.

Lemma apply_commander_damage_id src damage p :
  id (apply_commander_damage src damage p) = id p.
Proof. unfold apply_commander_damage. by case_bool_decide. Qed.

Lemma apply_commander_damage_name src damage p :
  name (apply_commander_damage src damage p) = name p.
Proof. unfold apply_commander_damage. by case_bool_decide. Qed.

Lemma apply_commander_damage_map src damage p :
  commanderDamage (apply_commander_damage src damage p)
  = <[src := damage]> (commanderDamage p).
Proof. unfold apply_commander_damage. by case_bool_decide. Qed.


(** A second identical update finds the stored value equal to the new one and
    assigns nothing new. *)
Lemma apply_commander_damage_twice src damage p :
  apply_commander_damage src damage (apply_commander_damage src damage p)
  = apply_commander_damage src damage p.
Proof.
  unfold apply_commander_damage at 1.
  rewrite damage_or_zero_default, apply_commander_damage_map, lookup_insert_eq.
  cbn. rewrite bool_decide_eq_false_2 by lia.
  rewrite insert_insert_eq. unfold apply_commander_damage.
  by case_bool_decide.
Qed.

Lemma update_current_conns s w f : conns (update_current s w f) = conns s.
Proof. unfold update_current. by destruct (room_of s w) as [[??]|]. Qed.

Lemma room_of_Some s w code room :
  room_of s w = Some (code, room) → rooms s !! code = Some room.
Proof.
  unfold room_of, room_of_code. intros H.
  destruct (conns s !! w ≫= _) as [c|]; simplify_eq/=.
  case_bool_decide; simplify_eq/=.
  by destruct (rooms s !! c) eqn:?; simplify_eq/=.
Qed.

Lemma room_of_update_current s w f code room :
  room_of s w = Some (code, room) →
  update_current s w f = set_rooms (<[code := f room]> (rooms s)) s
  ∧ room_of (update_current s w f) w = Some (code, f room).
Proof.
  intros H. unfold update_current. rewrite H. split; [done|].
  unfold room_of, room_of_code in *. cbn.
  destruct (conns s !! w ≫= _) as [c|]; simplify_eq/=.
  case_bool_decide; simplify_eq/=.
  destruct (rooms s !! c) eqn:?; simplify_eq/=.
  by rewrite lookup_insert_eq.
Qed.

Lemma room_commander_damage_found env src tgt damage room i t j sp :
  find_player tgt (players room) = Some (i, t) →
  find_player src (players room) = Some (j, sp) →
  players (room_commander_damage env src tgt damage room)
  = <[i := apply_commander_damage src damage t]> (players room).
Proof.
  intros Ht Hs. unfold room_commander_damage. rewrite Ht, Hs.
  by destruct (damage_message _ _ _ _ _).
Qed.

Lemma room_commander_damage_twice env1 env2 src tgt damage room :
  room_commander_damage env2 src tgt damage
    (room_commander_damage env1 src tgt damage room)
  = room_commander_damage env1 src tgt damage room.
Proof.
  destruct (find_player tgt (players room)) as [[i t]|] eqn:Ht; cycle 1.
  { unfold room_commander_damage at 2. rewrite Ht.
    unfold room_commander_damage. by rewrite Ht. }
  destruct (find_player src (players room)) as [[j sp]|] eqn:Hs; cycle 1.
  { unfold room_commander_damage at 2. rewrite Ht, Hs.
    unfold room_commander_damage. by rewrite Ht, Hs. }
  pose proof (room_commander_damage_found env1 src tgt damage room i t j sp Ht Hs)
    as Hplayers.
  set (room1 := room_commander_damage env1 src tgt damage room) in *.
  set (t1 := apply_commander_damage src damage t) in *.
  assert (find_player tgt (players room1) = Some (i, t1)) as Ht1.
  { rewrite Hplayers. apply (find_player_insert_same _ _ _ t); [done|].
    apply apply_commander_damage_id. }
  assert (is_Some (find_player src (players room1))) as [[j1 sp1] Hs1].
  { rewrite Hplayers, find_player_insert, Hs; [by eexists|].
    apply find_player_Some in Ht as (Hi & _ & _). intros q Hq.
    unfold t1. rewrite apply_commander_damage_id. congruence. }
  unfold room_commander_damage at 1. rewrite Ht1, Hs1.
  assert (apply_commander_damage src damage t1 = t1) as ->
    by apply apply_commander_damage_twice.
  assert (damage_or_zero (commanderDamage t1) src = damage) as ->.
  { rewrite damage_or_zero_default. unfold t1.
    by rewrite apply_commander_damage_map, lookup_insert_eq. }
  unfold damage_message. rewrite !bool_decide_eq_false_2 by lia.
  clearbody room1. destruct room1 as [ps lg]. cbn in *. subst ps.
  by rewrite list_insert_insert_eq.
Qed.






(** ** Messages that name no player of the room *)

Lemma current_room_run s w c code room :
  conns s !! w = Some c →
  room_of s w = Some (code, room) →
  get_currentRoomCode w s = (s, [], Some (currentRoomCode c))
  ∧ current_room (currentRoomCode c) s = (s, [], Some (Some (code, room))).
Proof.
  intros Hc Hroom. unfold get_currentRoomCode, gets. rewrite Hc. split; [done|].
  unfold room_of, room_of_code in Hroom. rewrite Hc in Hroom. cbn in Hroom.
  destruct (currentRoomCode c) as [code'|]; [|done]. cbn in *.
  unfold current_room, bind, room_at, ret.
  case_bool_decide; [done|].
  destruct (rooms s !! code') as [room'|]; by simplify_eq/=.
Qed.

(** C10. When the sender is in a room and the playerId of an UPDATE_LIFE or
    UPDATE_NAME message, or the target or the source of an
    UPDATE_COMMANDER_DAMAGE message, is the id of no player of that room, the
    message changes nothing in the server state (players and logs included)
    and nothing is sent: no GAME_UPDATE and no Error. *)
Theorem unknown_player_is_a_silent_noop s w c env code room :
  conns s !! w = Some c →
  room_of s w = Some (code, room) →
  (∀ pid newLife,
     find_player pid (players room) = None →
     step s (Message w env (Json (UPDATE_LIFE pid newLife))) = Some (s, []))
  ∧ (∀ pid newName,
       find_player pid (players room) = None →
       step s (Message w env (Json (UPDATE_NAME pid newName))) = Some (s, []))
  ∧ (∀ src tgt damage,
       find_player tgt (players room) = None
       ∨ find_player src (players room) = None →
       step s (Message w env (Json (UPDATE_COMMANDER_DAMAGE src tgt damage)))
       = Some (s, [])).
Proof.
  intros Hc Hroom.
  destruct (current_room_run s w c code room Hc Hroom) as [Hget Hcur].
  split; [|split].
  - intros pid newLife Hfind.
    unfold step, top_level, on_message, dispatch, case_UPDATE_LIFE, try_catch, bind.
    by rewrite Hc, Hget, Hcur, Hfind.
  - intros pid newName Hfind.
    unfold step, top_level, on_message, dispatch, case_UPDATE_NAME, try_catch, bind.
    by rewrite Hc, Hget, Hcur, Hfind.
  - intros src tgt damage Hfind.
    unfold step, top_level, on_message, dispatch, case_UPDATE_COMMANDER_DAMAGE,
      try_catch, bind.
    rewrite Hc, Hget, Hcur.
    destruct Hfind as [-> | ->]; [done|].
    by destruct (find_player tgt (players room)) as [[??]|].
Qed.

Lemma unknown_player_is_a_silent_noop_witness :
  step (state_after lethal_damage)
    (Message 1 noon (Json (UPDATE_LIFE "player9" 12)))
  = Some (state_after lethal_damage, [])
  ∧ step (state_after lethal_damage)
      (Message 1 noon (Json (UPDATE_NAME "player9" "Nine")))
    = Some (state_after lethal_damage, [])
  ∧ step (state_after lethal_damage)
      (Message 1 noon (Json (UPDATE_COMMANDER_DAMAGE "player9" "player1" 4)))
    = Some (state_after lethal_damage, []).
Proof.
  destruct (unknown_player_is_a_silent_noop (state_after lethal_damage) 1%N
              (mkConn "player1" (Some "ABCDEF")) noon "ABCDEF" lethal_room)
    as (Hlife & Hname & Hdamage).
  - vm_compute. reflexivity.
  - vm_compute. reflexivity.
  - split; [|split].
    + apply Hlife. vm_compute. reflexivity.
    + apply Hname. vm_compute. reflexivity.
    + apply Hdamage. right. vm_compute. reflexivity.
Defined.

(** ** Frames that are not JSON *)

Lemma run_cons ev evs s :
  run (ev :: evs) s
  = match step s ev with
    | Some (s1, o1) =>
        match run evs s1 with
        | Some (s2, o2) => Some (s2, o1 ++ o2)
        | None => None
        end
    | None => None
    end.
Proof. done. Qed.

(** C9. A frame that does not parse makes the handler of an open connection
    send exactly one reply, Error "Invalid message format", to that
    connection, and leaves the server state as it was; the process survives,
    and every later sequence of events, from this and other connections, is
    processed exactly as it would have been without the bad frame. *)
Theorem malformed_frame_gets_one_error s w c env :
  conns s !! w = Some c →
  step s (Message w env Malformed)
  = Some (s, [Send w (ERROR "Invalid message format")])
  ∧ ∀ evs,
      run (Message w env Malformed :: evs) s
      = match run evs s with
        | Some (s', out) => Some (s', Send w (ERROR "Invalid message format") :: out)
        | None => None
        end.
Proof.
  intros Hc.
  assert (step s (Message w env Malformed)
          = Some (s, [Send w (ERROR "Invalid message format")])) as Hstep.
  { unfold step. by rewrite Hc. }
  split; [done|]. intros evs. by rewrite run_cons, Hstep.
Qed.

Lemma malformed_frame_gets_one_error_witness :
  step (state_after full_table) (Message 7 noon Malformed)
  = Some (state_after full_table, [Send 7 (ERROR "Invalid message format")])
  ∧ run [Message 7 noon Malformed; Message 7 noon (Json (JOIN_ROOM "ABCDEF"))]
      (state_after full_table)
    = Some (state_after full_table,
            [Send 7 (ERROR "Invalid message format"); Send 7 (ERROR "Room is full")]).
Proof.
  destruct (malformed_frame_gets_one_error (state_after full_table) 7%N
              (mkConn "player7" None) noon) as [Hone Hrest].
  - vm_compute. reflexivity.
  - split; [exact Hone|]. rewrite Hrest. vm_compute. reflexivity.
Defined.

(** ** Room codes *)

Lemma append_length (front back : string) :
  String.length (front +:+ back) = (String.length front + String.length back)%nat.
Proof. induction front as [|a front IH]; simpl; [done|]. by f_equal. Qed.

Lemma charAt_chars_length i :
  (i < 36)%nat → String.length (charAt chars i) = 1%nat.
Proof. intros H. do 36 (destruct i as [|i]; [done|]). lia. Qed.

Lemma random_index_lt env i : (random_index env i < 36)%nat.
Proof. unfold random_index. apply Nat.mod_upper_bound. done. Qed.

Lemma generateRoomCode_length env : String.length (generateRoomCode env) = 6%nat.
Proof.
  unfold generateRoomCode. cbn [seq fold_left].
  rewrite !append_length, !charAt_chars_length by apply random_index_lt.
  done.
Qed.

Lemma code_not_inherited code :
  String.length code = 6%nat → (code ∉ object_prototype_keys) ∧ code ≠ "".
Proof.
  intros Hlen. split; [|intros Heq; rewrite Heq in Hlen; done].
  unfold object_prototype_keys. rewrite !not_elem_of_cons.
  repeat split; try (intros ->; done). apply not_elem_of_nil.
Qed.

Lemma codes_ok_update_current s w f : codes_ok s → codes_ok (update_current s w f).
Proof.
  intros [Hr Hc]. unfold update_current.
  destruct (room_of s w) as [[code room]|] eqn:Hroom; [|done].
  apply room_of_Some in Hroom. split; cbn; [|done].
  intros code' room'. rewrite lookup_insert. case_decide; naive_solver.
Qed.

Lemma codes_ok_next s ev : codes_ok s → codes_ok (next s ev).
Proof.
  intros [Hr Hc]. destruct ev as [|w env frame|w env]; cbn.
  - split; cbn; [done|]. intros w c code. rewrite lookup_insert.
    case_decide; [by intros [= <-]|by eauto].
  - destruct (conns s !! w) as [c|] eqn:Hw; [|done].
    destruct frame as [| |[]]; cbn; try done.
    + split; cbn.
      * intros code room. rewrite lookup_insert. case_decide; [|by eauto].
        intros _. subst. apply generateRoomCode_length.
      * intros w' c' code. rewrite lookup_insert. case_decide; [|by eauto].
        intros [= <-] [= <-]. apply generateRoomCode_length.
    + destruct (rooms s !! roomCode) as [room|] eqn:Hroom; [|done].
      case_bool_decide; [done|]. split; cbn.
      * intros code room'. rewrite lookup_insert. case_decide; naive_solver.
      * intros w' c' code. rewrite lookup_insert. case_decide; [|by eauto].
        intros [= <-] [= <-]. eauto.
    + by apply codes_ok_update_current.
    + by apply codes_ok_update_current.
    + by apply codes_ok_update_current.
    + by apply codes_ok_update_current.
  - destruct (conns s !! w) as [c|] eqn:Hw; [|done].
    assert (codes_ok (set_conns (delete w (conns s)) s)) as Hok.
    { split; cbn; [done|]. intros w' c' code. rewrite lookup_delete.
      case_decide; [done|by eauto]. }
    unfold after_close.
    destruct (room_of_code _ _) as [[code room]|] eqn:Hroom; [|done].
    assert (rooms s !! code = Some room) as Hcode.
    { unfold room_of_code in Hroom. destruct (currentRoomCode c); simplify_eq/=.
      case_bool_decide; simplify_eq/=.
      by destruct (rooms s !! s0) eqn:?; simplify_eq/=. }
    destruct Hok as [Hr' Hc'].
    destruct (room_left env (playerId c) room) as [room'|]; split; cbn; try done.
    + intros code' r. rewrite lookup_insert. case_decide; naive_solver.
    + intros code' r. rewrite lookup_delete. case_decide; [done|by eauto].
Qed.

Lemma codes_ok_reachable ok s : reachable_when ok s → codes_ok s.
Proof.
  induction 1 as [|s ev s' out _ IH Hok Hstep].
  - split.
    + intros code room. cbn. by rewrite lookup_empty.
    + intros w c code. cbn. by rewrite lookup_empty.
  - apply step_next in Hstep as ->. by apply codes_ok_next.
Qed.

(** ** The process survives every event *)

Lemma forEach_run {A} (l : list A) (f : A → M unit) (s : Server) :
  (∀ x s0, ∃ o, f x s0 = (s0, o, Some tt)) →
  ∃ o, forEach l f s = (s, o, Some tt).
Proof.
  intros Hf. induction l as [|x l [o IH]]; [by eexists|].
  cbn. unfold bind. destruct (Hf x s) as [o1 ->]. rewrite IH. by eexists.
Qed.

Lemma broadcastGameState_total roomCode s room :
  rooms s !! roomCode = Some room →
  ∃ o, broadcastGameState roomCode s = (s, o, Some tt).
Proof.
  intros Hr. unfold broadcastGameState, getGameState, bind, room_at, ret.
  rewrite Hr. cbn. rewrite Hr. cbn.
  match goal with |- context [forEach ?l ?f s] =>
    destruct (forEach_run l f s) as [o ->] end.
  - intros x s0. unfold bind, readyState_OPEN, gets, try_catch, send, ret. cbn.
    case_bool_decide; by eexists.
  - by eexists.
Qed.




(** ** Disconnection *)




Lemma reachable_after_run evs s s' out :
  reachable s → run evs s = Some (s', out) → reachable s'.
Proof.
  revert s out. induction evs as [|ev evs IH]; intros s out Hs Hrun.
  - by simplify_eq/=.
  - rewrite run_cons in Hrun.
    destruct (step s ev) as [[s1 o1]|] eqn:Hstep; [|done].
    destruct (run evs s1) as [[s2 o2]|] eqn:Hrest; [|done].
    simplify_eq/=. eapply IH; [|done]. by eapply reach_step.
Qed.






(** ** Which rooms a player is in *)

Lemma pid_of_inj w1 w2 : pid_of w1 = pid_of w2 → w1 = w2.
Proof.
  unfold pid_of. intros H. simpl in H.
  injection H as H. by apply pretty_N_inj.
Qed.

Lemma owners_insert room i p p' :
  players room !! i = Some p → id p' = id p → ws p' = ws p →
  (λ q, (id q, ws q)) <$> <[i := p']> (players room) = owners room.
Proof.
  intros Hi Hid Hws. unfold owners. rewrite list_fmap_insert.
  apply list_insert_id. rewrite list_lookup_fmap, Hi. cbn. by rewrite Hid, Hws.
Qed.

Lemma owners_update_life env pid newLife room :
  owners (room_update_life env pid newLife room) = owners room.
Proof.
  unfold room_update_life.
  destruct (find_player _ _) as [[i p]|] eqn:Hf; [|done].
  apply find_player_Some in Hf as (Hi & _ & _).
  unfold owners at 1. cbn. by apply (owners_insert _ _ p).
Qed.

Lemma owners_commander_damage env src tgt damage room :
  owners (room_commander_damage env src tgt damage room) = owners room.
Proof.
  unfold room_commander_damage.
  destruct (find_player tgt _) as [[i t]|] eqn:Hf; [|done].
  destruct (find_player src _) as [[j sp]|]; [|done].
  apply find_player_Some in Hf as (Hi & _ & _).
  assert (owners (set_players
            (<[i := apply_commander_damage src damage t]> (players room)) room)
          = owners room) as Hown.
  { unfold owners at 1. cbn. apply (owners_insert _ _ t); [done|..];
      unfold apply_commander_damage; by case_bool_decide. }
  by destruct (damage_message _ _ _ _ _).
Qed.

Lemma owners_update_name env pid newName room :
  owners (room_update_name env pid newName room) = owners room.
Proof.
  unfold room_update_name.
  destruct (find_player _ _) as [[i p]|] eqn:Hf; [|done].
  apply find_player_Some in Hf as (Hi & _ & _).
  unfold owners at 1. cbn. by apply (owners_insert _ _ p).
Qed.

Lemma owners_reset env room : owners (room_reset env room) = owners room.
Proof. unfold owners. cbn. by rewrite <- list_fmap_compose. Qed.







(** ** The earlier copy of the server *)

(** Without the try/catch, a frame that does not parse is an uncaught
    exception: no reply is sent and the process is gone. *)
Lemma legacy_malformed_frame_is_uncaught s w c env :
  conns s !! w = Some c → Legacy.step s (Message w env Malformed) = None.
Proof. intros Hc. unfold Legacy.step. by rewrite Hc. Qed.

(** X22. The earlier UPDATE_COMMANDER_DAMAGE stores the damage and leaves the
    target's life alone. *)
Lemma legacy_commander_damage_leaves_life
    s w c env src tgt damage code room i t j sp :
  conns s !! w = Some c →
  room_of s w = Some (code, room) →
  find_player tgt (players room) = Some (i, t) →
  find_player src (players room) = Some (j, sp) →
  ∃ s' out room' t',
    Legacy.step s (Message w env (Json (UPDATE_COMMANDER_DAMAGE src tgt damage)))
    = Some (s', out)
    ∧ rooms s' !! code = Some room'
    ∧ players room' = <[i := t']> (players room)
    ∧ commanderDamage t' = <[src := damage]> (commanderDamage t)
    ∧ life t' = life t.
Proof.
  intros Hc Hroom Ht Hs.
  destruct (current_room_run s w c code room Hc Hroom) as [Hget Hcur].
  unfold Legacy.step, top_level, Legacy.on_message,
    Legacy.case_UPDATE_COMMANDER_DAMAGE, bind.
  rewrite Hc, Hget, Hcur, Ht, Hs.
  unfold put_room, modify, addToLog, bind, room_at, put_room, modify. cbn.
  rewrite lookup_insert_eq. cbn.
  match goal with |- context [broadcastGameState ?k ?s1] =>
    destruct (broadcastGameState_total k s1
      (logged env
         (name sp +:+ " dealt " +:+ pretty damage +:+ " commander damage to "
            +:+ name t)
         (set_players
            (<[i := set_commanderDamage (<[src := damage]> (commanderDamage t)) t]>
               (players room)) room)))
      as [o ->] end.
  - cbn. by rewrite insert_insert_eq, lookup_insert_eq.
  - eexists _, _, _, _. split; [done|]. cbn.
    rewrite insert_insert_eq, lookup_insert_eq. done.
Qed.

(** ** The walk-through of the specification, evaluated *)

Example walk_through_room :
  rooms (state_after walk_through) !! "ABCDEF"
  = Some (mkRoom
            [ mkPlayer "player1" "Player 1" 35 (Some "#FF6B6B") ∅ 1;
              mkPlayer "player2" "Player 2" 37 (Some "#4ECDC4")
                {[ "player1" := 3 ]} 2 ]
            [ mkLogEntry "12:00:00 PM" "Player 1 created the game";
              mkLogEntry "12:00:00 PM" "Player 2 joined the game";
              mkLogEntry "12:00:00 PM" "Player 1: 40 → 35 (-5)";
              mkLogEntry "12:00:00 PM"
                "Player 1 dealt 3 commander damage to Player 2 (total: 3) - Life: 40 → 37" ]).
Proof. vm_compute. reflexivity. Qed.

Example walk_through_reset :
  rooms (state_after (walk_through ++ [Message 2 later (Json RESET_GAME)])) !! "ABCDEF"
  = Some (mkRoom
            [ mkPlayer "player1" "Player 1" 40 (Some "#FF6B6B") ∅ 1;
              mkPlayer "player2" "Player 2" 40 (Some "#4ECDC4") ∅ 2 ]
            [ mkLogEntry "12:05:00 PM" "Game reset" ]).
Proof. vm_compute. reflexivity. Qed.

(** The join is answered by ROOM_JOINED to the joiner, then GAME_UPDATE goes
    to both players. *)
Example walk_through_join_replies :
  recipients
    <$> step (state_after (solo ++ [Connect]))
          (Message 2 noon (Json (JOIN_ROOM "ABCDEF")))
  = Some [ 2%N; 1%N; 2%N ].
Proof. vm_compute. reflexivity. Qed.

(** A JOIN_ROOM whose code is a property inherited from [Object.prototype],
    and the JSON literal [null], end in the catch block. *)
Example inherited_key_is_caught :
  step (state_after solo) (Message 1 noon (Json (JOIN_ROOM "constructor")))
  = Some (state_after solo, [Send 1 (ERROR "Invalid message format")]).
Proof. vm_compute. reflexivity. Qed.

Example null_is_caught :
  step (state_after solo) (Message 1 noon JsonNull)
  = Some (state_after solo, [Send 1 (ERROR "Invalid message format")]).
Proof. vm_compute. reflexivity. Qed.

(** * Part IV: further properties of the code *)

(** ** [generateRoomCode] *)

Lemma get_list_ascii i str :
  String.get i str = String.list_ascii_of_string str !! i.
Proof.
  revert i. induction str as [|a str IH]; intros [|i]; simpl; done.
Qed.

Lemma charAt_chars i :
  (i < 36)%nat →
  ∃ a, charAt chars i = String a ""
       ∧ String.list_ascii_of_string chars !! i = Some a.
Proof.
  intros H. unfold charAt. rewrite get_list_ascii.
  destruct (String.list_ascii_of_string chars !! i) as [a|] eqn:Hi; [by eexists|].
  apply lookup_ge_None in Hi. cbn in Hi. lia.
Qed.

Lemma generateRoomCode_chars env :
  ∃ a0 a1 a2 a3 a4 a5,
    generateRoomCode env
    = String a0 (String a1 (String a2 (String a3 (String a4 (String a5 "")))))
    ∧ String.list_ascii_of_string chars !! random_index env 0 = Some a0
    ∧ String.list_ascii_of_string chars !! random_index env 1 = Some a1
    ∧ String.list_ascii_of_string chars !! random_index env 2 = Some a2
    ∧ String.list_ascii_of_string chars !! random_index env 3 = Some a3
    ∧ String.list_ascii_of_string chars !! random_index env 4 = Some a4
    ∧ String.list_ascii_of_string chars !! random_index env 5 = Some a5.
Proof.
  destruct (charAt_chars _ (random_index_lt env 0)) as (a0 & E0 & H0).
  destruct (charAt_chars _ (random_index_lt env 1)) as (a1 & E1 & H1).
  destruct (charAt_chars _ (random_index_lt env 2)) as (a2 & E2 & H2).
  destruct (charAt_chars _ (random_index_lt env 3)) as (a3 & E3 & H3).
  destruct (charAt_chars _ (random_index_lt env 4)) as (a4 & E4 & H4).
  destruct (charAt_chars _ (random_index_lt env 5)) as (a5 & E5 & H5).
  exists a0, a1, a2, a3, a4, a5. split; [|done].
  unfold generateRoomCode. cbn [seq fold_left].
  by rewrite E0, E1, E2, E3, E4, E5.
Qed.

Lemma generateRoomCode_room_code env : room_code (generateRoomCode env).
Proof.
  destruct (generateRoomCode_chars env)
    as (a0 & a1 & a2 & a3 & a4 & a5 & -> & H0 & H1 & H2 & H3 & H4 & H5).
  split; [done|]. cbn [String.list_ascii_of_string].
  repeat (apply Forall_cons; split; [by eapply list_elem_of_lookup_2|]).
  apply Forall_nil_2.
Qed.

Lemma room_code_not_inherited code :
  room_code code → (code ∉ object_prototype_keys) ∧ code ≠ "".
Proof. intros [Hlen _]. by apply code_not_inherited. Qed.

(** X1. [generateRoomCode] always returns six characters, each an uppercase
    letter or a digit of [chars], the k-th one being the character of [chars]
    at the k-th random index; and every such six-character code is returned
    for suitable draws. *)
Theorem generateRoomCode_range :
  (∀ env,
     room_code (generateRoomCode env)
     ∧ ∀ k, (k < 6)%nat →
         String.get k (generateRoomCode env)
         = String.get (random_index env k) chars)
  ∧ (∀ code, room_code code → ∃ env, generateRoomCode env = code).
Proof.
  split.
  - intros env. split; [apply generateRoomCode_room_code|].
    intros k Hk.
    destruct (generateRoomCode_chars env)
      as (a0 & a1 & a2 & a3 & a4 & a5 & -> & H0 & H1 & H2 & H3 & H4 & H5).
    rewrite (get_list_ascii _ chars).
    do 6 (destruct k as [|k]; [done|]). lia.
  - intros code [Hlen Hall].
    destruct code as [|c0 [|c1 [|c2 [|c3 [|c4 [|c5 [|]]]]]]]; try done.
    cbn [String.list_ascii_of_string] in Hall.
    apply Forall_cons_1 in Hall as [[i0 H0]%list_elem_of_lookup_1 Hall].
    apply Forall_cons_1 in Hall as [[i1 H1]%list_elem_of_lookup_1 Hall].
    apply Forall_cons_1 in Hall as [[i2 H2]%list_elem_of_lookup_1 Hall].
    apply Forall_cons_1 in Hall as [[i3 H3]%list_elem_of_lookup_1 Hall].
    apply Forall_cons_1 in Hall as [[i4 H4]%list_elem_of_lookup_1 Hall].
    apply Forall_cons_1 in Hall as [[i5 H5]%list_elem_of_lookup_1 _].
    exists (mkEnv (λ k, nth k [i0; i1; i2; i3; i4; i5] 0%nat) "").
    unfold generateRoomCode, random_index, charAt. cbn [seq fold_left rnd nth].
    rewrite (Nat.mod_small i0), (Nat.mod_small i1), (Nat.mod_small i2),
      (Nat.mod_small i3), (Nat.mod_small i4), (Nat.mod_small i5)
      by (change (String.length chars)
            with (length (String.list_ascii_of_string chars));
          eapply lookup_lt_Some; eassumption).
    by rewrite !get_list_ascii, H0, H1, H2, H3, H4, H5.
Qed.

Lemma generateRoomCode_range_witness :
  room_code (generateRoomCode noon)
  ∧ ∃ env, generateRoomCode env = "Z9Z9Z9".
Proof.
  destruct generateRoomCode_range as [Hshape Hall]. split.
  - apply (Hshape noon).
  - apply (Hall "Z9Z9Z9"). split; [reflexivity|].
    apply (bool_decide_unpack _). vm_compute. exact I.
Defined.

(** ** The keys of the registry *)

Section codes.
Variable Pcode : string → Prop.
Hypothesis Pcode_generated : ∀ env, Pcode (generateRoomCode env).

Lemma codes_satisfy_update_current s w f :
  codes_satisfy Pcode s → codes_satisfy Pcode (update_current s w f).
Proof.
  intros [Hr Hc]. unfold update_current.
  destruct (room_of s w) as [[code room]|] eqn:Hroom; [|done].
  apply room_of_Some in Hroom. split; cbn; [|done].
  intros code' room'. rewrite lookup_insert. case_decide; naive_solver.
Qed.

Lemma codes_satisfy_next s ev :
  codes_satisfy Pcode s → codes_satisfy Pcode (next s ev).
Proof.
  intros [Hr Hc]. destruct ev as [|w env frame|w env]; cbn.
  - split; cbn; [done|]. intros w c code. rewrite lookup_insert.
    case_decide; [by intros [= <-]|by eauto].
  - destruct (conns s !! w) as [c|] eqn:Hw; [|done].
    destruct frame as [| |[]]; cbn; try done;
      try by apply codes_satisfy_update_current.
    + split; cbn.
      * intros code room. rewrite lookup_insert. case_decide; [|by eauto].
        intros _. subst. apply Pcode_generated.
      * intros w' c' code. rewrite lookup_insert. case_decide; [|by eauto].
        intros [= <-] [= <-]. apply Pcode_generated.
    + destruct (rooms s !! roomCode) as [room|] eqn:Hroom; [|done].
      case_bool_decide; [done|]. split; cbn.
      * intros code room'. rewrite lookup_insert. case_decide; naive_solver.
      * intros w' c' code. rewrite lookup_insert. case_decide; [|by eauto].
        intros [= <-] [= <-]. eauto.
  - destruct (conns s !! w) as [c|] eqn:Hw; [|done].
    assert (codes_satisfy Pcode (set_conns (delete w (conns s)) s)) as Hok.
    { split; cbn; [done|]. intros w' c' code. rewrite lookup_delete.
      case_decide; [done|by eauto]. }
    unfold after_close.
    destruct (room_of_code _ _) as [[code room]|] eqn:Hroom; [|done].
    assert (rooms s !! code = Some room) as Hcode.
    { unfold room_of_code in Hroom.
      destruct (currentRoomCode c) as [code0|]; simplify_eq/=.
      case_bool_decide; simplify_eq/=.
      by destruct (rooms s !! code0) eqn:?; simplify_eq/=. }
    destruct Hok as [Hr' Hc'].
    destruct (room_left env (playerId c) room) as [room'|]; split; cbn; try done.
    + intros code' r. rewrite lookup_insert. case_decide; naive_solver.
    + intros code' r. rewrite lookup_delete. case_decide; [done|by eauto].
Qed.

Lemma codes_satisfy_reachable s : reachable s → codes_satisfy Pcode s.
Proof.
  induction 1 as [|s ev s' out _ IH Hok Hstep].
  - split.
    + intros code room. cbn. by rewrite lookup_empty.
    + intros w c code. cbn. by rewrite lookup_empty.
  - apply step_next in Hstep as ->. by apply codes_satisfy_next.
Qed.
End codes.

(** X4. In every reachable state, every key of the registry and every
    connection's [currentRoomCode] is a code of six characters of [chars];
    so none is the empty string, and reading [rooms] at a connection's
    current code never meets an inherited property: it yields the room or
    [undefined], without an exception. *)
Theorem registry_keys_are_room_codes s :
  reachable s →
  (∀ code room, rooms s !! code = Some room → room_code code)
  ∧ (∀ w c code,
       conns s !! w = Some c → currentRoomCode c = Some code →
       room_code code
       ∧ code ≠ ""
       ∧ room_at code s = (s, [], Some (rooms s !! code))).
Proof.
  intros Hs.
  destruct (codes_satisfy_reachable room_code generateRoomCode_room_code s Hs)
    as [Hr Hc].
  split; [done|]. intros w c code Hw Hcode.
  pose proof (Hc w c code Hw Hcode) as Hrc.
  destruct (room_code_not_inherited code Hrc) as [Hkey Hne].
  split; [done|]. split; [done|].
  unfold room_at. destruct (rooms s !! code); [done|].
  by rewrite bool_decide_eq_false_2.
Qed.

Lemma registry_keys_are_room_codes_witness :
  room_code "GHIJKL"
  ∧ room_at "GHIJKL" (state_after two_rooms)
    = (state_after two_rooms, [], Some (rooms (state_after two_rooms) !! "GHIJKL")).
Proof.
  destruct (registry_keys_are_room_codes (state_after two_rooms)) as [_ Hc].
  - apply (reachable_state_after any_event). vm_compute. reflexivity.
  - destruct (Hc 1%N (mkConn "player1" (Some "GHIJKL")) "GHIJKL")
      as (Hcode & _ & Hread).
    + vm_compute. reflexivity.
    + reflexivity.
    + split; [exact Hcode|exact Hread].
Defined.

(** ** Player ids *)

Lemma ids_issued_update_current s w f :
  (∀ room, owners (f room) = owners room) →
  ids_issued s → ids_issued (update_current s w f).
Proof.
  intros Hf [Hc Hr]. unfold update_current.
  destruct (room_of s w) as [[code room]|] eqn:Hroom; [|done].
  apply room_of_Some in Hroom. split; cbn; [done|].
  intros code' room' pr. rewrite lookup_insert. case_decide; [|by eauto].
  intros [= <-]. rewrite Hf. subst. eauto.
Qed.

Lemma owners_remaining playerId room pr :
  pr ∈ owners (set_players (remaining_players playerId room) room) →
  pr ∈ owners room.
Proof.
  unfold owners, remaining_players. cbn.
  intros (p & -> & [_ Hp]%list_elem_of_filter)%list_elem_of_fmap.
  apply list_elem_of_fmap. by exists p.
Qed.

Lemma ids_issued_next s ev : ids_issued s → ids_issued (next s ev).
Proof.
  intros [Hc Hr]. destruct ev as [|w env frame|w env]; cbn.
  - split; cbn.
    + intros w c. rewrite lookup_insert. case_decide.
      * intros [= <-]. subst. split; [done|lia].
      * intros Hw. destruct (Hc w c Hw). split; [done|lia].
    + intros code room pr Hroom Hpr.
      destruct (Hr code room pr Hroom Hpr). split; [done|lia].
  - destruct (conns s !! w) as [c|] eqn:Hw; [|done].
    destruct (Hc w c Hw) as [Hpid Hlt].
    destruct frame as [| |[]]; cbn in *; try done.
    + split; cbn.
      * intros w' c'. rewrite lookup_insert. case_decide; [|by eauto].
        intros [= <-]. by subst.
      * intros code room pr. rewrite lookup_insert. case_decide; [|by eauto].
        intros [= <-]. unfold owners. cbn.
        by intros ->%list_elem_of_singleton.
    + destruct (rooms s !! roomCode) as [room|] eqn:Hroom; [|done].
      case_bool_decide; [done|]. split; cbn.
      * intros w' c'. rewrite lookup_insert. case_decide; [|by eauto].
        intros [= <-]. by subst.
      * intros code room' pr. rewrite lookup_insert. case_decide; [|by eauto].
        intros [= <-]. unfold owners. cbn. rewrite fmap_app. cbn.
        intros [Hold | ->%list_elem_of_singleton]%elem_of_app; [by eauto|done].
    + apply ids_issued_update_current; [apply owners_update_life|done].
    + apply ids_issued_update_current; [apply owners_commander_damage|done].
    + apply ids_issued_update_current; [apply owners_update_name|done].
    + apply ids_issued_update_current; [apply owners_reset|done].
  - destruct (conns s !! w) as [c|] eqn:Hw; [|done].
    assert (∀ w' c', delete w (conns s) !! w' = Some c' →
              playerId c' = pid_of w' ∧ (w' < playerIdCounter s)%N) as Hc'.
    { intros w' c'. rewrite lookup_delete. case_decide; [done|by eauto]. }
    unfold after_close.
    destruct (room_of_code _ _) as [[code room]|] eqn:Hroom; [|done].
    assert (rooms s !! code = Some room) as Hcode.
    { unfold room_of_code in Hroom. cbn in Hroom.
      destruct (currentRoomCode c) as [code0|]; simplify_eq/=.
      case_bool_decide; simplify_eq/=.
      by destruct (rooms s !! code0) eqn:?; simplify_eq/=. }
    destruct (room_left env (playerId c) room) as [room'|] eqn:Hleft;
      split; cbn; try done.
    + intros code' r pr. rewrite lookup_insert. case_decide; [|by eauto].
      intros [= <-]. subst code'.
      unfold room_left in Hleft. case_bool_decide; [done|]. simplify_eq/=.
      intros Hpr. apply (Hr code room); [done|].
      by apply (owners_remaining (playerId c)).
    + intros code' r pr. rewrite lookup_delete. case_decide; [done|by eauto].
Qed.

Lemma ids_issued_reachable s : reachable s → ids_issued s.
Proof.
  induction 1 as [|s ev s' out _ IH Hok Hstep].
  - split.
    + intros w c. cbn. by rewrite lookup_empty.
    + intros code room pr. cbn. by rewrite lookup_empty.
  - apply step_next in Hstep as ->. by apply ids_issued_next.
Qed.

Lemma pid_of_lt_ne w n : (w < n)%N → pid_of w ≠ pid_of n.
Proof. intros Hlt Heq%pid_of_inj. lia. Qed.

(** X2. Player ids are never shared and never reused.  In every reachable
    state two open connections with the same [playerId] are the same
    connection, and two players with the same id, in whatever rooms, were
    pushed by the same socket.  The next connection gets the id
    "player<counter>", starts in no room, and its id is the id of no open
    connection and of no player of any room. *)
Theorem player_ids_are_unique s :
  reachable s →
  (∀ w1 w2 c1 c2,
     conns s !! w1 = Some c1 → conns s !! w2 = Some c2 →
     playerId c1 = playerId c2 → w1 = w2)
  ∧ (∀ code1 code2 room1 room2 p1 p2,
       rooms s !! code1 = Some room1 → rooms s !! code2 = Some room2 →
       p1 ∈ players room1 → p2 ∈ players room2 →
       id p1 = id p2 → ws p1 = ws p2)
  ∧ ∃ s' c,
      step s Connect = Some (s', [])
      ∧ conns s' !! playerIdCounter s = Some c
      ∧ playerId c = "player" +:+ pretty (playerIdCounter s)
      ∧ currentRoomCode c = None
      ∧ (∀ w c0, conns s !! w = Some c0 → playerId c0 ≠ playerId c)
      ∧ (∀ code room p,
           rooms s !! code = Some room → p ∈ players room → id p ≠ playerId c).
Proof.
  intros Hs. destruct (ids_issued_reachable s Hs) as [Hc Hr].
  assert (∀ code room p, rooms s !! code = Some room → p ∈ players room →
            id p = pid_of (ws p) ∧ (ws p < playerIdCounter s)%N) as Hp.
  { intros code room p Hroom Hin.
    apply (Hr code room (id p, ws p) Hroom).
    unfold owners. apply list_elem_of_fmap. by exists p. }
  split; [|split].
  - intros w1 w2 c1 c2 H1 H2 Heq.
    destruct (Hc w1 c1 H1) as [E1 _]. destruct (Hc w2 c2 H2) as [E2 _].
    apply pid_of_inj. congruence.
  - intros code1 code2 room1 room2 p1 p2 Hr1 Hr2 Hp1 Hp2 Heq.
    destruct (Hp code1 room1 p1 Hr1 Hp1) as [E1 _].
    destruct (Hp code2 room2 p2 Hr2 Hp2) as [E2 _].
    apply pid_of_inj. congruence.
  - eexists _, _. split; [reflexivity|]. cbn.
    rewrite lookup_insert_eq. split; [done|]. cbn.
    split; [done|]. split; [done|]. split.
    + intros w c0 Hw. destruct (Hc w c0 Hw) as [-> Hlt].
      by apply pid_of_lt_ne.
    + intros code room p Hroom Hin.
      destruct (Hp code room p Hroom Hin) as [-> Hlt].
      by apply pid_of_lt_ne.
Qed.

Lemma player_ids_are_unique_witness :
  ∃ s' c,
    step (state_after two_rooms) Connect = Some (s', [])
    ∧ conns s' !! 3%N = Some c
    ∧ playerId c = "player3"
    ∧ currentRoomCode c = None.
Proof.
  destruct (player_ids_are_unique (state_after two_rooms))
    as (_ & _ & s' & c & Hstep & Hconn & Hid & Hcode & _).
  - apply (reachable_state_after any_event). vm_compute. reflexivity.
  - exists s', c. split; [exact Hstep|]. split; [exact Hconn|].
    split; [exact Hid|exact Hcode].
Defined.


(** ** Rooms are never empty *)

Lemma push_shift_nonempty e log : push_shift e log ≠ [].
Proof.
  destruct (decide (length log < 50)%nat).
  - rewrite push_shift_short by done. by destruct log.
  - rewrite push_shift_long by lia. by destruct (tail log).
Qed.

Lemma occupied_logged env msg room :
  players room ≠ [] → occupied (logged env msg room).
Proof. intros H. split; [done|]. apply push_shift_nonempty. Qed.

Lemma insert_nonempty {A} (l : list A) i x : l ≠ [] → <[i := x]> l ≠ [].
Proof. intros H E. apply H. apply (f_equal length) in E.
  rewrite length_insert in E. by destruct l. Qed.

Lemma occupied_reachable s : reachable s → room_inv occupied s.
Proof.
  intros Hs. apply (room_inv_reachable occupied any_message).
  - intros. by apply occupied_logged.
  - intros w pid env room _ _. apply occupied_logged. cbn. by destruct (players room).
  - intros env pid newLife room _ Hr. unfold room_update_life.
    destruct (find_player _ _) as [[i p]|]; [|done].
    apply occupied_logged. cbn. apply insert_nonempty, Hr.
  - intros env src tgt damage room _ [Hp Hl]. unfold room_commander_damage.
    destruct (find_player tgt _) as [[i t]|]; [|done].
    destruct (find_player src _) as [[j sp]|]; [|done].
    destruct (damage_message _ _ _ _ _).
    + apply occupied_logged. cbn. by apply insert_nonempty.
    + split; [|done]. cbn. by apply insert_nonempty.
  - intros env pid newName room Hr. unfold room_update_name.
    destruct (find_player _ _) as [[i p]|]; [|done].
    apply occupied_logged. cbn. apply insert_nonempty, Hr.
  - intros env room [Hp _]. apply occupied_logged. cbn. by destruct (players room).
  - intros env pid room room' _. unfold room_left. case_bool_decide; [done|].
    intros [= <-]. apply occupied_logged. cbn.
    by destruct (remaining_players pid room).
  - revert Hs. apply reachable_when_mono. intros s0 [|w env [| |d]|w env]; done.
Qed.

(** X5. In every reachable state every room of the registry has at least
    one player and at least one log entry: a room is created with its
    creator, and the close handler deletes it when its last player leaves. *)
Theorem no_room_is_empty s code room :
  reachable s →
  rooms s !! code = Some room →
  (1 ≤ length (players room))%nat ∧ (1 ≤ length (gameLog room))%nat.
Proof.
  intros Hs Hr. destruct (occupied_reachable s Hs code room Hr) as [Hp Hl].
  destruct (players room), (gameLog room); cbn; try done; lia.
Qed.

Lemma no_room_is_empty_witness :
  (1 ≤ length (players duo_room))%nat ∧ (1 ≤ length (gameLog duo_room))%nat.
Proof.
  apply (no_room_is_empty (state_after duo) "ABCDEF" duo_room).
  - apply (reachable_state_after any_event). vm_compute. reflexivity.
  - vm_compute. reflexivity.
Defined.

(** ** The status endpoint *)

Lemma total_players_bounds (m : gmap string Room) :
  map_Forall (λ _ room, 1 ≤ length (players room) ≤ 6)%nat m →
  (size m
   ≤ map_fold (λ _ room total, (total + length (players room))%nat) 0%nat m
   ≤ 6 * size m)%nat.
Proof.
  apply (map_fold_weak_ind
    (λ r (m' : gmap string Room),
       map_Forall (λ _ room, 1 ≤ length (players room) ≤ 6)%nat m' →
       (size m' ≤ r ≤ 6 * size m')%nat)).
  - intros _. rewrite map_size_empty. lia.
  - intros i x m' r Hi IH [Hx Hm']%map_Forall_insert; [|done].
    rewrite map_size_insert_None by done. specialize (IH Hm'). lia.
Qed.

(** X6. The counts reported by the status endpoint are consistent in every
    reachable state: there are at least as many players as rooms, and at most
    six times as many. *)
Theorem status_counts_are_consistent s :
  reachable s →
  (activeRooms (health s) ≤ totalPlayers (health s) ≤ 6 * activeRooms (health s))%nat.
Proof.
  intros Hs. unfold health. cbn. apply total_players_bounds.
  intros code room Hr. cbn.
  pose proof (capacity_reachable s Hs code room Hr) as Hcap.
  destruct (occupied_reachable s Hs code room Hr) as [Hp _].
  unfold within_capacity in Hcap. destruct (players room); [done|]. cbn in *. lia.
Qed.

Lemma status_counts_are_consistent_witness :
  health (state_after two_rooms)
  = mkStatus "bigtable Life Tracker Server Running" 2 3
  ∧ (2 ≤ 3 ≤ 6 * 2)%nat.
Proof.
  split; [vm_compute; reflexivity|].
  apply (status_counts_are_consistent (state_after two_rooms)).
  apply (reachable_state_after any_event). vm_compute. reflexivity.
Defined.

(** ** [broadcastGameState] and [getGameState] *)

Lemma forEach_sends (l : list Player) (f : Player → M unit) m s :
  (∀ x s0,
     f x s0
     = (s0, if bool_decide (is_Some (conns s0 !! ws x)) then [Send (ws x) m] else [],
        Some tt)) →
  forEach l f s
  = (s, (λ p, Send (ws p) m) <$> filter (λ p, is_Some (conns s !! ws p)) l, Some tt).
Proof.
  intros Hf. induction l as [|x l IH]; [done|].
  cbn [forEach]. unfold bind. rewrite Hf, IH.
  case_bool_decide.
  - by rewrite filter_cons_True.
  - by rewrite filter_cons_False.
Qed.

Lemma getGameState_exact roomCode s room :
  rooms s !! roomCode = Some room →
  getGameState roomCode s = (s, [], Some (Some (snapshot room))).
Proof. intros Hr. unfold getGameState, bind, room_at, ret. by rewrite Hr. Qed.

Lemma broadcastGameState_exact roomCode s room :
  rooms s !! roomCode = Some room →
  broadcastGameState roomCode s = (s, broadcast_out s room, Some tt).
Proof.
  intros Hr. unfold broadcastGameState, bind at 1.
  unfold room_at at 1. rewrite Hr. unfold bind.
  rewrite (getGameState_exact _ _ room Hr).
  rewrite (forEach_sends _ _ (GAME_UPDATE (Some (snapshot room)))); [done|].
  intros x s0. unfold bind, readyState_OPEN, gets, try_catch, send, ret.
  by case_bool_decide.
Qed.

Lemma inbox_broadcast_closed s room w :
  conns s !! w = None → inbox w (broadcast_out s room) = [].
Proof.
  intros Hw. unfold inbox, broadcast_out.
  induction (players room) as [|p l IH]; [done|].
  destruct (decide (is_Some (conns s !! ws p))) as [Hopen|Hclosed].
  - rewrite filter_cons_True by done. cbn. case_decide; [|done].
    subst. rewrite Hw in Hopen. by destruct Hopen.
  - by rewrite filter_cons_False.
Qed.

(** X12. For a room of the registry, [broadcastGameState] changes no state and
    throws nothing; it writes one GAME_UPDATE per entry of the player list
    whose socket is open, in list order, every frame carrying the same
    snapshot (the players without their sockets, and the log).  A closed
    socket is written nothing, and every player with an open socket is
    written the snapshot. *)
Theorem broadcast_reaches_open_sockets s roomCode room :
  rooms s !! roomCode = Some room →
  broadcastGameState roomCode s
  = (s,
     (λ p, Send (ws p)
             (GAME_UPDATE
                (Some (mkGameState (player_json <$> players room) (gameLog room)))))
       <$> filter (λ p, is_Some (conns s !! ws p)) (players room),
     Some tt)
  ∧ (∀ w, conns s !! w = None → inbox w (broadcast_out s room) = [])
  ∧ (∀ p, p ∈ players room → is_Some (conns s !! ws p) →
       Send (ws p) (GAME_UPDATE (Some (snapshot room))) ∈ broadcast_out s room).
Proof.
  intros Hr. split; [by apply broadcastGameState_exact|].
  split; [intros w; apply inbox_broadcast_closed|].
  intros p Hp Hopen. unfold broadcast_out.
  apply list_elem_of_fmap. exists p. split; [done|].
  by apply list_elem_of_filter.
Qed.

Lemma broadcast_reaches_open_sockets_witness :
  broadcastGameState "ABCDEF" (state_after (duo ++ [Close 1 noon]))
  = (state_after (duo ++ [Close 1 noon]),
     [Send 2 (GAME_UPDATE
                (Some (mkGameState
                         [mkPlayerJson "player2" "Player 2" 40 (Some "#4ECDC4") ∅]
                         [mkLogEntry "12:00:00 PM" "Player 1 created the game";
                          mkLogEntry "12:00:00 PM" "Player 2 joined the game";
                          mkLogEntry "12:00:00 PM" "Player 1 left the game"])))],
     Some tt).
Proof.
  destruct (broadcast_reaches_open_sockets (state_after (duo ++ [Close 1 noon]))
              "ABCDEF"
              (default (mkRoom [] [])
                 (rooms (state_after (duo ++ [Close 1 noon])) !! "ABCDEF")))
    as [Hout _].
  - vm_compute. reflexivity.
  - rewrite Hout. vm_compute. reflexivity.
Defined.

(** ** The cases of the message handler, at work *)

Lemma commit_log_broadcast s code room1 env msg :
  (put_room code room1 ;; addToLog env code msg ;; broadcastGameState code) s
  = (set_rooms (<[code := logged env msg room1]> (rooms s)) s,
     broadcast_out (set_rooms (<[code := logged env msg room1]> (rooms s)) s)
       (logged env msg room1),
     Some tt).
Proof.
  unfold bind at 1. unfold put_room at 1, modify.
  unfold bind at 1.
  rewrite (addToLog_exec _ _ _ _ room1) by (cbn; apply lookup_insert_eq).
  cbn [set_rooms rooms playerIdCounter conns]. rewrite insert_insert_eq.
  rewrite (broadcastGameState_exact _ _ (logged env msg room1))
    by (cbn; apply lookup_insert_eq).
  done.
Qed.





(** X7. RESET_GAME, sent from a room: every player of the room gets life 40
    and an empty commander-damage map, keeping id, name, colour, socket and
    position; the log becomes the single entry "Game reset"; the new game
    state goes to every open socket of the room; other rooms are untouched. *)
Theorem reset_game_restores_the_start s w c env code room :
  conns s !! w = Some c →
  room_of s w = Some (code, room) →
  ∃ s' room',
    step s (Message w env (Json RESET_GAME)) = Some (s', broadcast_out s' room')
    ∧ s' = set_rooms (<[code := room']> (rooms s)) s
    ∧ players room'
      = (λ p, mkPlayer (id p) (name p) 40 (color p) ∅ (ws p)) <$> players room
    ∧ gameLog room' = [mkLogEntry (now env) "Game reset"].
Proof.
  intros Hc Hroom.
  destruct (current_room_run s w c code room Hc Hroom) as [Hget Hcur].
  eexists _, (logged env "Game reset" (mkRoom (reset_player <$> players room) [])).
  split; [|done].
  unfold step. rewrite Hc. unfold top_level, on_message, try_catch, dispatch,
    case_RESET_GAME.
  unfold bind at 1. rewrite Hget. unfold bind at 1. rewrite Hcur.
  by rewrite commit_log_broadcast.
Qed.

Lemma reset_game_restores_the_start_witness :
  ∃ s' room',
    step (state_after lethal_damage) (Message 2 later (Json RESET_GAME))
    = Some (s', broadcast_out s' room')
    ∧ (life <$> players room') = [40; 40]
    ∧ (commanderDamage <$> players room') = [∅; ∅]
    ∧ gameLog room' = [mkLogEntry "12:05:00 PM" "Game reset"].
Proof.
  destruct (reset_game_restores_the_start (state_after lethal_damage) 2%N
              (mkConn "player2" (Some "ABCDEF")) later "ABCDEF" lethal_room)
    as (s' & room' & Hstep & _ & Hplayers & Hlog).
  - vm_compute. reflexivity.
  - vm_compute. reflexivity.
  - exists s', room'. split; [exact Hstep|].
    rewrite Hplayers, Hlog. repeat split; vm_compute; reflexivity.
Defined.

(** A frame whose case runs to its end without an exception: the catch block
    stays out of it. *)
Lemma step_dispatch s w c env frame s' out :
  conns s !! w = Some c →
  dispatch w (playerId c) env frame s = (s', out, Some tt) →
  step s (Message w env frame) = Some (s', out).
Proof.
  intros Hc Hrun. unfold step. rewrite Hc.
  unfold top_level, on_message, try_catch. by rewrite Hrun.
Qed.

Lemma case_CREATE_ROOM_run w playerId env s :
  case_CREATE_ROOM w playerId env s
  = (mkServer
       (<[generateRoomCode env :=
            mkRoom
              [mkPlayer playerId "Player 1" 40 (Some "#FF6B6B") ∅ w]
              [mkLogEntry (now env) "Player 1 created the game"]]> (rooms s))
       (playerIdCounter s)
       (<[w := mkConn playerId (Some (generateRoomCode env))]> (conns s)),
     [Send w
        (ROOM_CREATED (generateRoomCode env) playerId
           (Some (mkGameState
                    [mkPlayerJson playerId "Player 1" 40 (Some "#FF6B6B") ∅]
                    [])))],
     Some tt).
Proof.
  unfold case_CREATE_ROOM.
  unfold bind at 1. unfold put_room at 1, modify.
  unfold bind at 1. unfold push_player, bind at 1. unfold room_at at 1.
  cbn [set_rooms rooms playerIdCounter conns]. rewrite lookup_insert_eq.
  unfold put_room at 1, modify.
  cbn [set_rooms rooms playerIdCounter conns]. rewrite insert_insert_eq.
  unfold bind at 1. unfold set_currentRoomCode, modify.
  unfold bind at 1.
  erewrite getGameState_exact by (cbn; apply lookup_insert_eq).
  unfold bind at 1. unfold send at 1.
  erewrite addToLog_exec by (cbn; apply lookup_insert_eq).
  cbn [set_rooms set_conns rooms playerIdCounter conns]. rewrite insert_insert_eq.
  done.
Qed.

(** X10. CREATE_ROOM from any open connection, in any state: a room with the
    drawn code is written to the registry, replacing a room that may already
    have that code; it holds the creator alone ("Player 1", life 40, the
    first colour, no damage); the connection's current room becomes the new
    code, whatever it was; the only frame sent is ROOM_CREATED to the creator,
    with a game state whose log is still empty, while the stored log already
    has "Player 1 created the game". *)
Theorem create_room_makes_or_replaces_a_room s w c env :
  conns s !! w = Some c →
  step s (Message w env (Json CREATE_ROOM))
  = Some
      (mkServer
         (<[generateRoomCode env :=
              mkRoom
                [mkPlayer (playerId c) "Player 1" 40 (Some "#FF6B6B") ∅ w]
                [mkLogEntry (now env) "Player 1 created the game"]]> (rooms s))
         (playerIdCounter s)
         (<[w := mkConn (playerId c) (Some (generateRoomCode env))]> (conns s)),
       [Send w
          (ROOM_CREATED (generateRoomCode env) (playerId c)
             (Some (mkGameState
                      [mkPlayerJson (playerId c) "Player 1" 40 (Some "#FF6B6B") ∅]
                      [])))]).
Proof.
  intros Hc. apply (step_dispatch _ _ c); [done|].
  unfold dispatch. apply case_CREATE_ROOM_run.
Qed.

Lemma create_room_makes_or_replaces_a_room_witness :
  (owners <$> rooms (state_after duo) !! "ABCDEF")
  = Some [("player1", 1%N); ("player2", 2%N)]
  ∧ ∃ s' out,
      step (state_after duo) (Message 2 noon (Json CREATE_ROOM)) = Some (s', out)
      ∧ (owners <$> rooms s' !! "ABCDEF") = Some [("player2", 2%N)].
Proof.
  split; [vm_compute; reflexivity|].
  eexists _, _. split.
  - apply (create_room_makes_or_replaces_a_room (state_after duo) 2%N
             (mkConn "player2" (Some "ABCDEF")) noon).
    vm_compute. reflexivity.
  - vm_compute. reflexivity.
Defined.

Lemma case_JOIN_ROOM_run w playerId env joinCode room s :
  rooms s !! joinCode = Some room →
  (length (players room) < 6)%nat →
  case_JOIN_ROOM w playerId env joinCode s
  = (mkServer (<[joinCode := room_joined w playerId env room]> (rooms s))
       (playerIdCounter s)
       (<[w := mkConn playerId (Some joinCode)]> (conns s)),
     Send w (ROOM_JOINED playerId
               (Some (mkGameState
                        (player_json <$> players room ++ [joiner_of w playerId room])
                        (gameLog room))))
     :: broadcast_out
          (mkServer (<[joinCode := room_joined w playerId env room]> (rooms s))
             (playerIdCounter s)
             (<[w := mkConn playerId (Some joinCode)]> (conns s)))
          (room_joined w playerId env room),
     Some tt).
Proof.
  intros Hr Hlt. unfold case_JOIN_ROOM.
  unfold bind at 1. unfold room_at at 1. rewrite Hr.
  rewrite bool_decide_eq_false_2 by lia.
  unfold bind at 1. unfold push_player, bind at 1. unfold room_at at 1.
  rewrite Hr. unfold put_room at 1, modify.
  unfold bind at 1. unfold set_currentRoomCode, modify.
  unfold bind at 1.
  erewrite getGameState_exact by (cbn; apply lookup_insert_eq).
  unfold bind at 1. unfold send at 1.
  unfold bind at 1.
  erewrite addToLog_exec by (cbn; apply lookup_insert_eq).
  cbn [set_rooms set_conns rooms playerIdCounter conns]. rewrite insert_insert_eq.
  erewrite broadcastGameState_exact by (cbn; apply lookup_insert_eq).
  reflexivity.
Qed.

(** X11. JOIN_ROOM for a room of the registry with fewer than 6 players: the
    joiner is appended at the end of the player list as "Player <n+1>", with
    life 40, the colour at index n and no damage (n the number of players
    before); the connection's current room becomes that code; the joiner is
    sent ROOM_JOINED with the game state before the log entry, then
    "Player <n+1> joined the game" is logged and the new game state goes to
    every open socket of the room. *)
Theorem join_room_appends_the_joiner s w c env joinCode room :
  conns s !! w = Some c →
  rooms s !! joinCode = Some room →
  (length (players room) < 6)%nat →
  ∃ s' room' joiner,
    step s (Message w env (Json (JOIN_ROOM joinCode)))
    = Some (s',
            Send w (ROOM_JOINED (playerId c)
                      (Some (mkGameState (player_json <$> players room ++ [joiner])
                               (gameLog room))))
            :: broadcast_out s' room')
    ∧ joiner
      = mkPlayer (playerId c) ("Player " +:+ pretty (length (players room) + 1)%nat)
          40 (playerColors !! length (players room)) ∅ w
    ∧ is_Some (color joiner)
    ∧ room'
      = mkRoom (players room ++ [joiner])
          (push_shift (mkLogEntry (now env) (name joiner +:+ " joined the game"))
             (gameLog room))
    ∧ s'
      = mkServer (<[joinCode := room']> (rooms s)) (playerIdCounter s)
          (<[w := mkConn (playerId c) (Some joinCode)]> (conns s)).
Proof.
  intros Hc Hr Hlt. eexists _, _, _. split; [|split; [reflexivity|split]].
  - apply (step_dispatch _ _ c); [done|].
    unfold dispatch. by erewrite case_JOIN_ROOM_run.
  - cbn. apply lookup_lt_is_Some. cbn. lia.
  - done.
Qed.

Lemma join_room_appends_the_joiner_witness :
  ∃ s' room' joiner,
    step (state_after (solo ++ [Connect])) (Message 2 noon (Json (JOIN_ROOM "ABCDEF")))
    = Some (s',
            Send 2 (ROOM_JOINED "player2"
                      (Some (mkGameState (player_json <$> players solo_room ++ [joiner])
                               (gameLog solo_room))))
            :: broadcast_out s' room')
    ∧ joiner = mkPlayer "player2" "Player 2" 40 (Some "#4ECDC4") ∅ 2
    ∧ recipients (s', broadcast_out s' room') = [1%N; 2%N].
Proof.
  destruct (join_room_appends_the_joiner (state_after (solo ++ [Connect])) 2%N
              (mkConn "player2" None) noon "ABCDEF" solo_room)
    as (s' & room' & joiner & Hstep & Hjoiner & _ & Hroom & Hs').
  - vm_compute. reflexivity.
  - vm_compute. reflexivity.
  - vm_compute. lia.
  - exists s', room', joiner. split; [exact Hstep|]. split.
    + rewrite Hjoiner. vm_compute. reflexivity.
    + rewrite Hs', Hroom, Hjoiner. vm_compute. reflexivity.
Defined.

(** ** Messages from outside a room, and failed joins *)

Lemma current_room_none s w c :
  reachable s →
  conns s !! w = Some c →
  room_of s w = None →
  get_currentRoomCode w s = (s, [], Some (currentRoomCode c))
  ∧ current_room (currentRoomCode c) s = (s, [], Some None).
Proof.
  intros Hs Hc Hroom. unfold get_currentRoomCode, gets. rewrite Hc.
  split; [done|].
  pose proof (codes_ok_reachable _ _ Hs) as [_ Hlen].
  unfold room_of, room_of_code in Hroom. rewrite Hc in Hroom. cbn in Hroom.
  destruct (currentRoomCode c) as [code|] eqn:Hcode; [|done]. cbn in Hroom.
  destruct (code_not_inherited code (Hlen w c code Hc Hcode)) as [Hkey Hne].
  unfold current_room, bind, room_at, ret.
  rewrite bool_decide_eq_false_2 in * by done.
  destruct (rooms s !! code) as [room|]; [done|].
  by rewrite bool_decide_eq_false_2.
Qed.

(** X13. In a reachable state, UPDATE_LIFE, UPDATE_COMMANDER_DAMAGE,
    UPDATE_NAME and RESET_GAME from a connection that is in no room (it never
    created or joined one, or its room is gone from the registry) change
    nothing and are answered by nothing, not even an Error. *)
Theorem updates_outside_a_room_are_ignored s w c env data :
  reachable s →
  conns s !! w = Some c →
  room_of s w = None →
  is_update data = true →
  step s (Message w env (Json data)) = Some (s, []).
Proof.
  intros Hs Hc Hroom Hdata.
  destruct (current_room_none s w c Hs Hc Hroom) as [Hget Hcur].
  unfold step. rewrite Hc.
  unfold top_level, on_message, try_catch, dispatch.
  destruct data; try done.
  - unfold case_UPDATE_LIFE, bind. by rewrite Hget, Hcur.
  - unfold case_UPDATE_COMMANDER_DAMAGE, bind. by rewrite Hget, Hcur.
  - unfold case_UPDATE_NAME, bind. by rewrite Hget, Hcur.
  - unfold case_RESET_GAME, bind. by rewrite Hget, Hcur.
Qed.

Lemma updates_outside_a_room_are_ignored_witness :
  step (state_after (solo ++ [Connect])) (Message 2 noon (Json RESET_GAME))
  = Some (state_after (solo ++ [Connect]), []).
Proof.
  apply (updates_outside_a_room_are_ignored (state_after (solo ++ [Connect])) 2%N
           (mkConn "player2" None) noon RESET_GAME).
  - apply (reachable_state_after any_event). vm_compute. reflexivity.
  - vm_compute. reflexivity.
  - vm_compute. reflexivity.
  - reflexivity.
Defined.



(** ** What the update messages never do *)

Lemma update_current_keeps_membership s w f :
  (∀ room, owners (f room) = owners room) →
  conns (update_current s w f) = conns s
  ∧ playerIdCounter (update_current s w f) = playerIdCounter s
  ∧ dom (rooms (update_current s w f)) = dom (rooms s)
  ∧ (∀ code room,
       rooms s !! code = Some room →
       ∃ room', rooms (update_current s w f) !! code = Some room'
                ∧ owners room' = owners room)
  ∧ (∀ code room,
       rooms s !! code = Some room → (∀ r, room_of s w ≠ Some (code, r)) →
       rooms (update_current s w f) !! code = Some room).
Proof.
  intros Hf. unfold update_current.
  destruct (room_of s w) as [[code0 room0]|] eqn:Hroom; cycle 1.
  { repeat split; eauto. }
  pose proof (room_of_Some _ _ _ _ Hroom) as Hcode0. cbn.
  split; [done|]. split; [done|]. split; [|split].
  - by apply dom_insert_lookup_L.
  - intros code room Hr. destruct (decide (code0 = code)) as [->|Hne].
    + rewrite lookup_insert_eq. eexists. split; [done|]. rewrite Hf. congruence.
    + rewrite lookup_insert_ne by done. eauto.
  - intros code room Hr Hother. rewrite lookup_insert_ne; [done|].
    intros ->. by apply (Hother room0).
Qed.

(** X15. UPDATE_LIFE, UPDATE_COMMANDER_DAMAGE, UPDATE_NAME and RESET_GAME never
    change who is where: the connections and their current rooms, the id
    counter and the set of room codes stay as they are; in every room the
    list of (id, socket) pairs of the players is the same, in the same
    order; and every room other than the sender's is left exactly as it
    was. *)
Theorem updates_keep_membership s w env data s' out :
  step s (Message w env (Json data)) = Some (s', out) →
  is_update data = true →
  conns s' = conns s
  ∧ playerIdCounter s' = playerIdCounter s
  ∧ dom (rooms s') = dom (rooms s)
  ∧ (∀ code room,
       rooms s !! code = Some room →
       ∃ room', rooms s' !! code = Some room' ∧ owners room' = owners room)
  ∧ (∀ code room,
       rooms s !! code = Some room → (∀ r, room_of s w ≠ Some (code, r)) →
       rooms s' !! code = Some room).
Proof.
  intros Hstep Hdata. apply step_next in Hstep as ->. cbn.
  destruct (conns s !! w) as [c|]; [|by repeat split; eauto].
  destruct data; try done; cbn [after_message];
    apply update_current_keeps_membership.
  - apply owners_update_life.
  - apply owners_commander_damage.
  - apply owners_update_name.
  - apply owners_reset.
Qed.

Lemma updates_keep_membership_witness :
  ∃ s' room',
    rooms s' !! "ABCDEF" = Some room'
    ∧ owners room' = owners lethal_room
    ∧ conns s' = conns (state_after lethal_damage).
Proof.
  destruct (step (state_after lethal_damage) (Message 2 later (Json RESET_GAME)))
    as [[s' out]|] eqn:Hstep; [|vm_compute in Hstep; discriminate].
  destruct (updates_keep_membership _ _ _ _ _ _ Hstep eq_refl)
    as (Hconns & _ & _ & Hrooms & _).
  destruct (Hrooms "ABCDEF" lethal_room) as (room' & Hr' & Hown).
  - vm_compute. reflexivity.
  - exists s', room'. split; [exact Hr'|]. split; [exact Hown|exact Hconns].
Defined.

(** ** What an update message is answered *)

Lemma commit_broadcast s code room1 :
  (put_room code room1 ;; ret tt ;; broadcastGameState code) s
  = (set_rooms (<[code := room1]> (rooms s)) s,
     broadcast_out (set_rooms (<[code := room1]> (rooms s)) s) room1,
     Some tt).
Proof.
  unfold bind at 1. unfold put_room at 1, modify.
  unfold bind at 1. unfold ret at 1.
  rewrite (broadcastGameState_exact _ _ room1) by (cbn; apply lookup_insert_eq).
  done.
Qed.

Lemma room_of_put s w code room room1 :
  room_of s w = Some (code, room) →
  room_of (set_rooms (<[code := room1]> (rooms s)) s) w = Some (code, room1).
Proof.
  intros Hroom.
  destruct (room_of_update_current s w (λ _, room1) code room Hroom) as [<- H].
  exact H.
Qed.

Lemma update_outcome s w c env data :
  reachable s →
  conns s !! w = Some c →
  is_update data = true →
  dispatch w (playerId c) env (Json data) s = (s, [], Some tt)
  ∨ ∃ code room room' s',
      room_of s w = Some (code, room)
      ∧ s' = set_rooms (<[code := room']> (rooms s)) s
      ∧ room_of s' w = Some (code, room')
      ∧ dispatch w (playerId c) env (Json data) s
        = (s', broadcast_out s' room', Some tt).
Proof.
  intros Hs Hc Hdata.
  remember (dispatch w (playerId c) env (Json data) s) as r eqn:Hr.
  unfold dispatch in Hr.
  destruct (room_of s w) as [[code room]|] eqn:Hroom; cycle 1.
  { left. destruct (current_room_none s w c Hs Hc Hroom) as [Hget Hcur].
    destruct data; try done.
    - unfold case_UPDATE_LIFE, bind in Hr. by rewrite Hget, Hcur in Hr.
    - unfold case_UPDATE_COMMANDER_DAMAGE, bind in Hr. by rewrite Hget, Hcur in Hr.
    - unfold case_UPDATE_NAME, bind in Hr. by rewrite Hget, Hcur in Hr.
    - unfold case_RESET_GAME, bind in Hr. by rewrite Hget, Hcur in Hr. }
  destruct (current_room_run s w c code room Hc Hroom) as [Hget Hcur].
  destruct data as [| |pid newLife|src tgt damage|pid newName| |]; try done.
  - unfold case_UPDATE_LIFE in Hr. unfold bind at 1 in Hr. rewrite Hget in Hr.
    unfold bind at 1 in Hr. rewrite Hcur in Hr.
    destruct (find_player pid (players room)) as [[i p]|]; [|by left].
    rewrite commit_log_broadcast in Hr.
    right. eexists code, room, _, _. split; [done|]. split; [reflexivity|].
    split; [by eapply room_of_put|exact Hr].
  - unfold case_UPDATE_COMMANDER_DAMAGE in Hr. unfold bind at 1 in Hr.
    rewrite Hget in Hr. unfold bind at 1 in Hr. rewrite Hcur in Hr.
    destruct (find_player tgt (players room)) as [[i t]|]; [|by left].
    destruct (find_player src (players room)) as [[j sp]|]; [|by left].
    cbv zeta in Hr.
    destruct (damage_message _ _ _ _ _) as [msg|].
    + rewrite commit_log_broadcast in Hr.
      right. eexists code, room, _, _. split; [done|]. split; [reflexivity|].
      split; [by eapply room_of_put|exact Hr].
    + rewrite commit_broadcast in Hr.
      right. eexists code, room, _, _. split; [done|]. split; [reflexivity|].
      split; [by eapply room_of_put|exact Hr].
  - unfold case_UPDATE_NAME in Hr. unfold bind at 1 in Hr. rewrite Hget in Hr.
    unfold bind at 1 in Hr. rewrite Hcur in Hr.
    destruct (find_player pid (players room)) as [[i p]|]; [|by left].
    cbv zeta in Hr. rewrite commit_log_broadcast in Hr.
    right. eexists code, room, _, _. split; [done|]. split; [reflexivity|].
    split; [by eapply room_of_put|exact Hr].
  - unfold case_RESET_GAME in Hr. unfold bind at 1 in Hr. rewrite Hget in Hr.
    unfold bind at 1 in Hr. rewrite Hcur in Hr.
    rewrite commit_log_broadcast in Hr.
    right. eexists code, room, _, _. split; [done|]. split; [reflexivity|].
    split; [by eapply room_of_put|exact Hr].
Qed.



(** ** The client's game state *)

Lemma receive_game_updates gs frames c :
  Forall (λ m, m = GAME_UPDATE gs) frames →
  frames ≠ [] →
  Client.receive frames c = shows gs c.
Proof.
  intros Hall. revert c. induction Hall as [|m frames -> Hall IH]; [done|].
  intros c _. unfold Client.receive. cbn.
  destruct frames as [|m' frames']; [done|].
  change (Client.receive (m' :: frames') (shows gs c) = shows gs c).
  by rewrite IH.
Qed.

Lemma inbox_broadcast_frames s room w :
  Forall (λ m, m = GAME_UPDATE (Some (snapshot room))) (inbox w (broadcast_out s room)).
Proof.
  unfold inbox, broadcast_out.
  induction (filter _ (players room)) as [|p l IH]; [by constructor|].
  cbn. case_decide; [by constructor|done].
Qed.

Lemma inbox_broadcast_member s room w p :
  p ∈ players room → ws p = w → is_Some (conns s !! w) →
  inbox w (broadcast_out s room) ≠ [].
Proof.
  intros Hp Hw Hopen. unfold inbox, broadcast_out.
  assert (p ∈ filter (λ p, is_Some (conns s !! ws p)) (players room)) as Hin.
  { apply list_elem_of_filter. by rewrite Hw. }
  induction Hin as [p l|p q l Hin IH]; cbn.
  - by rewrite decide_True.
  - case_decide; [done|by apply IH].
Qed.

Lemma inbox_broadcast_outsider s room w :
  (∀ p, p ∈ players room → ws p ≠ w) →
  inbox w (broadcast_out s room) = [].
Proof.
  intros Hout. unfold inbox, broadcast_out.
  induction (players room) as [|p l IH]; [done|].
  assert (∀ q, q ∈ l → ws q ≠ w) as Hl by (intros q Hq; apply Hout; by right).
  destruct (decide (is_Some (conns s !! ws p))).
  - rewrite filter_cons_True by done. cbn.
    rewrite decide_False by (apply Hout; by left). by apply IH.
  - rewrite filter_cons_False by done. by apply IH.
Qed.

(** X17. The broadcast and the client's [onmessage], composed.  After the
    client of a player of the room, whose socket is open, has handled the
    frames [broadcastGameState] wrote to that socket, its game state is the
    room as [getGameState] serialises it, and no other field of the client
    state has changed (not its own id, and not the player selected in the
    commander-damage dialog).  The client of a socket that belongs to no
    player of the room receives nothing and keeps its state. *)
Theorem client_shows_the_broadcast s roomCode room w c :
  rooms s !! roomCode = Some room →
  ∃ out,
    broadcastGameState roomCode s = (s, out, Some tt)
    ∧ (∀ p, p ∈ players room → ws p = w → is_Some (conns s !! w) →
         Client.receive (inbox w out) c = shows (Some (snapshot room)) c)
    ∧ ((∀ p, p ∈ players room → ws p ≠ w) → Client.receive (inbox w out) c = c).
Proof.
  intros Hr. exists (broadcast_out s room).
  split; [by apply broadcastGameState_exact|]. split.
  - intros p Hp Hw Hopen. apply receive_game_updates.
    + apply inbox_broadcast_frames.
    + by eapply inbox_broadcast_member.
  - intros Hout. by rewrite inbox_broadcast_outsider.
Qed.

Lemma client_shows_the_broadcast_witness :
  ∃ out,
    broadcastGameState "ABCDEF" (state_after duo) = (state_after duo, out, Some tt)
    ∧ Client.gameState (Client.receive (inbox 2 out) Client.initial)
      = Some (snapshot duo_room)
    ∧ Client.receive (inbox 3 out) Client.initial = Client.initial.
Proof.
  destruct (client_shows_the_broadcast (state_after duo) "ABCDEF" duo_room 2%N
              Client.initial) as (out & Hout & _).
  - vm_compute. reflexivity.
  - exists out. split; [exact Hout|].
    assert (out = broadcast_out (state_after duo) duo_room) as ->.
    { assert (broadcastGameState "ABCDEF" (state_after duo)
              = (state_after duo, broadcast_out (state_after duo) duo_room, Some tt))
        as Heq by (vm_compute; reflexivity).
      congruence. }
    split; vm_compute; reflexivity.
Defined.

Lemma inbox_cons_same w m out : inbox w (Send w m :: out) = m :: inbox w out.
Proof. unfold inbox. simpl. by rewrite decide_True. Qed.

Lemma find_json_id pid l p : Client.find_json pid l = Some p → pj_id p = pid.
Proof.
  unfold Client.find_json.
  destruct (list_find _ l) as [[i q]|] eqn:H; [|done].
  intros [= <-]. by apply list_find_Some in H as (_ & H & _).
Qed.

Lemma find_json_snapshot pid l :
  Client.find_json pid (player_json <$> l)
  = (λ r, player_json r.2) <$> find_player pid l.
Proof.
  unfold Client.find_json, find_player. rewrite list_find_fmap.
  change (list_find ((λ p, pj_id p = pid) ∘ player_json) l)
    with (list_find (λ p, id p = pid) l).
  by destruct (list_find _ l) as [[i q]|].
Qed.

(** X18. JOIN_ROOM and the joiner's client, composed.  After a successful
    join the joiner's socket is written ROOM_JOINED and then the broadcast;
    once the client has handled both, its game state is the room as the
    server holds it after the join (the joiner and the log entry included),
    its own id is the id the server gave the connection, its player is found
    in that game state, and nothing else of the client state has changed;
    the room code on the screen is not set by these frames. *)
Theorem joiner_sees_the_room s w conn env joinCode room c :
  conns s !! w = Some conn →
  rooms s !! joinCode = Some room →
  (length (players room) < 6)%nat →
  ∃ s' out room',
    step s (Message w env (Json (JOIN_ROOM joinCode))) = Some (s', out)
    ∧ rooms s' !! joinCode = Some room'
    ∧ Client.receive (inbox w out) c
      = Client.mkState (Client.connected c) (Client.roomCode c)
          (Client.inputRoomCode c) (Some (snapshot room')) (playerId conn)
          (Client.showLog c) (Client.showCommanderDamage c)
          (Client.selectedPlayer c)
    ∧ (pj_id <$> Client.myPlayer (Client.receive (inbox w out) c))
      = Some (playerId conn).
Proof.
  intros Hc Hr Hlt.
  assert (∃ s' room' joiner,
            step s (Message w env (Json (JOIN_ROOM joinCode)))
            = Some (s',
                    Send w (ROOM_JOINED (playerId conn)
                              (Some (mkGameState
                                       (player_json <$> players room ++ [joiner])
                                       (gameLog room))))
                    :: broadcast_out s' room')
            ∧ joiner = joiner_of w (playerId conn) room
            ∧ room' = room_joined w (playerId conn) env room
            ∧ s' = mkServer (<[joinCode := room']> (rooms s)) (playerIdCounter s)
                     (<[w := mkConn (playerId conn) (Some joinCode)]> (conns s)))
    as (s' & room' & joiner & Hstep & Hjoiner & Hroom' & Hs').
  { eexists _, _, _. split; [|done].
    apply (step_dispatch _ _ conn); [done|].
    unfold dispatch. by erewrite case_JOIN_ROOM_run. }
  eexists s', _, room'. split; [exact Hstep|].
  split; [rewrite Hs'; cbn; apply lookup_insert_eq|].
  assert (Client.receive
            (inbox w (Send w (ROOM_JOINED (playerId conn)
                        (Some (mkGameState (player_json <$> players room ++ [joiner])
                                 (gameLog room))))
                      :: broadcast_out s' room')) c
          = Client.mkState (Client.connected c) (Client.roomCode c)
              (Client.inputRoomCode c) (Some (snapshot room')) (playerId conn)
              (Client.showLog c) (Client.showCommanderDamage c)
              (Client.selectedPlayer c)) as Hview.
  { rewrite inbox_cons_same.
    unfold Client.receive. cbn [fold_left Client.onmessage fst].
    match goal with |- fold_left _ _ ?c1 = _ =>
      change (Client.receive (inbox w (broadcast_out s' room')) c1 = 
              shows (Some (snapshot room')) c1) end.
    apply receive_game_updates; [apply inbox_broadcast_frames|].
    apply (inbox_broadcast_member _ _ _ joiner).
    - rewrite Hroom', Hjoiner. cbn. apply elem_of_app. right. by left.
    - by rewrite Hjoiner.
    - rewrite Hs'. cbn. rewrite lookup_insert_eq. by eexists. }
  split; [exact Hview|].
  rewrite Hview.
  change (pj_id <$> Client.find_json (playerId conn) (player_json <$> players room')
          = Some (playerId conn)).
  rewrite find_json_snapshot.
  destruct (find_player (playerId conn) (players room')) as [[i p]|] eqn:Hfind.
  - cbn. f_equal. by apply find_player_Some in Hfind as (_ & ? & _).
  - exfalso. rewrite find_player_None in Hfind.
    apply (Hfind joiner); [|by rewrite Hjoiner].
    rewrite Hroom', Hjoiner. cbn. apply elem_of_app. right. by left.
Qed.

Lemma joiner_sees_the_room_witness :
  ∃ s' out room',
    step (state_after (solo ++ [Connect])) (Message 2 noon (Json (JOIN_ROOM "ABCDEF")))
    = Some (s', out)
    ∧ rooms s' !! "ABCDEF" = Some room'
    ∧ Client.receive (inbox 2 out) Client.initial
      = Client.mkState false "" "" (Some (snapshot room')) "player2" false false None
    ∧ (pj_id <$> Client.myPlayer (Client.receive (inbox 2 out) Client.initial))
      = Some "player2".
Proof.
  apply (joiner_sees_the_room (state_after (solo ++ [Connect])) 2%N
           (mkConn "player2" None) noon "ABCDEF" solo_room Client.initial).
  - vm_compute. reflexivity.
  - vm_compute. reflexivity.
  - vm_compute. lia.
Defined.

(** X19. CREATE_ROOM and the creator's client, composed.  ROOM_CREATED is
    built before the log entry is written and CREATE_ROOM does not
    broadcast: after the creator's client has handled the reply it shows
    the new code, its own id and the room's one player, but an empty log,
    while the log of the room on the server already holds
    "Player 1 created the game". *)
Theorem creator_sees_an_empty_log s w conn env c :
  conns s !! w = Some conn →
  ∃ s' out room',
    step s (Message w env (Json CREATE_ROOM)) = Some (s', out)
    ∧ rooms s' !! generateRoomCode env = Some room'
    ∧ Client.receive (inbox w out) c
      = Client.mkState (Client.connected c) (generateRoomCode env)
          (Client.inputRoomCode c)
          (Some (mkGameState (gs_players (snapshot room')) []))
          (playerId conn) (Client.showLog c) (Client.showCommanderDamage c)
          (Client.selectedPlayer c)
    ∧ gs_gameLog (snapshot room')
      = [mkLogEntry (now env) "Player 1 created the game"].
Proof.
  intros Hc. eexists _, _, _.
  split.
  { apply (step_dispatch _ _ conn); [done|].
    unfold dispatch. apply case_CREATE_ROOM_run. }
  split; [cbn; apply lookup_insert_eq|].
  split; [|done].
  by rewrite inbox_cons_same.
Qed.

Lemma creator_sees_an_empty_log_witness :
  ∃ s' out room',
    step (state_after [Connect]) (Message 1 noon (Json CREATE_ROOM)) = Some (s', out)
    ∧ rooms s' !! "ABCDEF" = Some room'
    ∧ Client.receive (inbox 1 out) Client.initial
      = Client.mkState false "ABCDEF" ""
          (Some (mkGameState (gs_players (snapshot room')) []))
          "player1" false false None
    ∧ gs_gameLog (snapshot room')
      = [mkLogEntry "12:00:00 PM" "Player 1 created the game"].
Proof.
  apply (creator_sees_an_empty_log (state_after [Connect]) 1%N
           (mkConn "player1" None) noon Client.initial).
  vm_compute. reflexivity.
Defined.

(** ** The commander-damage dialog *)

Lemma myPlayer_id c me : Client.myPlayer c = Some me → pj_id me = Client.myPlayerId c.
Proof.
  unfold Client.myPlayer. destruct (Client.gameState c) as [gs|]; [|done].
  apply find_json_id.
Qed.

Lemma damage_button_shows plus gs c data :
  damage_button plus c = Client.Sends data →
  damage_button plus (shows gs c) = Client.Sends data
  ∨ damage_button plus (shows gs c) = Client.Nothing.
Proof.
  destruct (Client.myPlayer (shows gs c)) as [me'|] eqn:Hme'; cycle 1.
  { intros _. right.
    destruct plus; unfold damage_button, Client.damage_plus, Client.damage_minus;
      rewrite Hme'; by destruct (Client.showCommanderDamage _). }
  intros Hdata. left. rewrite <- Hdata.
  pose proof (myPlayer_id _ _ Hme') as Hid'.
  change (Client.myPlayerId (shows gs c)) with (Client.myPlayerId c) in Hid'.
  destruct plus; unfold damage_button, Client.damage_plus, Client.damage_minus in *;
    rewrite Hme';
    change (Client.showCommanderDamage (shows gs c))
      with (Client.showCommanderDamage c);
    change (Client.selectedPlayer (shows gs c)) with (Client.selectedPlayer c);
    destruct (Client.showCommanderDamage c); try done;
    destruct (Client.myPlayer c) as [me|] eqn:Hme; try done;
    destruct (Client.selectedPlayer c) as [selected|]; try done;
    apply myPlayer_id in Hme; unfold Client.current_damage;
    by rewrite Hid', Hme.
Qed.

Lemma update_current_commander_damage_twice s w env1 env2 src tgt damage :
  update_current (update_current s w (room_commander_damage env1 src tgt damage)) w
    (room_commander_damage env2 src tgt damage)
  = update_current s w (room_commander_damage env1 src tgt damage).
Proof.
  destruct (room_of s w) as [[code room]|] eqn:Hroom; cycle 1.
  { unfold update_current. rewrite Hroom. by rewrite Hroom. }
  destruct (room_of_update_current s w
              (room_commander_damage env1 src tgt damage) code room Hroom)
    as [Hs1 Hroom1].
  set (s1 := update_current s w (room_commander_damage env1 src tgt damage)) in *.
  destruct (room_of_update_current s1 w
              (room_commander_damage env2 src tgt damage) code _ Hroom1)
    as [-> _].
  rewrite room_commander_damage_twice.
  rewrite insert_id by by eapply room_of_Some.
  apply set_rooms_id.
Qed.

(** X20. The commander-damage dialog computes the damage to send from the
    player object that was stored when the card was tapped, and no frame
    from the server replaces that object.  So when a button of the dialog
    sent a message and the client has handled the frames the server wrote
    back, the same button sends the same message again (or nothing, when the
    client's own player is no longer in the game state), and the server,
    processing it a second time, leaves its state as it is: pressing "+"
    repeatedly raises the stored damage once. *)
Theorem damage_dialog_repeats_its_message s w conn env1 env2 c plus data :
  reachable s →
  conns s !! w = Some conn →
  damage_button plus c = Client.Sends data →
  ∃ s1 out1 out2,
    step s (Message w env1 (Json data)) = Some (s1, out1)
    ∧ (damage_button plus (Client.receive (inbox w out1) c) = Client.Sends data
       ∨ damage_button plus (Client.receive (inbox w out1) c) = Client.Nothing)
    ∧ step s1 (Message w env2 (Json data)) = Some (s1, out2).
Proof.
  intros Hs Hc Hdata.
  assert (∃ src tgt damage, data = UPDATE_COMMANDER_DAMAGE src tgt damage)
    as (src & tgt & damage & ->).
  { destruct plus; unfold damage_button, Client.damage_plus, Client.damage_minus in Hdata;
      destruct (Client.showCommanderDamage c); try done;
      destruct (Client.myPlayer c); try done;
      destruct (Client.selectedPlayer c); try done.
    - injection Hdata as <-. by eexists _, _, _.
    - case_bool_decide; [|done]. injection Hdata as <-. by eexists _, _, _. }
  assert (∀ s0 env,
            conns s0 !! w = Some conn →
            ∃ out,
              step s0 (Message w env (Json (UPDATE_COMMANDER_DAMAGE src tgt damage)))
              = Some (update_current s0 w (room_commander_damage env src tgt damage),
                      out)) as Hrun.
  { intros s0 env Hc0. eexists. by rewrite (step_Message _ _ conn). }
  destruct (Hrun s env1 Hc) as [out1 Hstep1].
  destruct (Hrun (update_current s w (room_commander_damage env1 src tgt damage)) env2)
    as [out2 Hstep2]; [by rewrite update_current_conns|].
  rewrite update_current_commander_damage_twice in Hstep2.
  eexists _, out1, out2. split; [exact Hstep1|]. split; [|exact Hstep2].
  destruct (update_outcome s w conn env1 (UPDATE_COMMANDER_DAMAGE src tgt damage)
              Hs Hc eq_refl)
    as [Hnone|(code & room & room' & s' & _ & _ & _ & Hsome)].
  - apply (step_dispatch _ _ conn) in Hnone; [|done].
    rewrite Hstep1 in Hnone. injection Hnone as _ ->. by left.
  - apply (step_dispatch _ _ conn) in Hsome; [|done].
    rewrite Hstep1 in Hsome. injection Hsome as _ ->.
    destruct (inbox w (broadcast_out s' room')) as [|m frames] eqn:Hinbox; [by left|].
    rewrite <- Hinbox.
    rewrite (receive_game_updates (Some (snapshot room'))).
    + by apply damage_button_shows.
    + apply inbox_broadcast_frames.
    + by rewrite Hinbox.
Qed.

Lemma damage_dialog_repeats_its_message_witness :
  damage_button true dialog_open
  = Client.Sends (UPDATE_COMMANDER_DAMAGE "player1" "player2" 1)
  ∧ ∃ s1 out1 out2,
      step (state_after duo)
        (Message 1 noon (Json (UPDATE_COMMANDER_DAMAGE "player1" "player2" 1)))
      = Some (s1, out1)
      ∧ (damage_button true (Client.receive (inbox 1 out1) dialog_open)
         = Client.Sends (UPDATE_COMMANDER_DAMAGE "player1" "player2" 1)
         ∨ damage_button true (Client.receive (inbox 1 out1) dialog_open)
           = Client.Nothing)
      ∧ step s1
          (Message 1 later (Json (UPDATE_COMMANDER_DAMAGE "player1" "player2" 1)))
        = Some (s1, out2).
Proof.
  split; [vm_compute; reflexivity|].
  apply (damage_dialog_repeats_its_message (state_after duo) 1%N
           (mkConn "player1" (Some "ABCDEF")) noon later dialog_open true).
  - apply (reachable_state_after any_event). vm_compute. reflexivity.
  - vm_compute. reflexivity.
  - vm_compute. reflexivity.
Defined.

(** ** The life buttons *)



(** ** The earlier copy of the server, at work *)

Lemma legacy_commander_damage_leaves_life_witness :
  ∃ s' out room' t',
    Legacy.step (state_after duo)
      (Message 1 later (Json (UPDATE_COMMANDER_DAMAGE "player1" "player2" 21)))
    = Some (s', out)
    ∧ rooms s' !! "ABCDEF" = Some room'
    ∧ players room' = <[1%nat := t']> (players duo_room)
    ∧ commanderDamage t' = {[ "player1" := 21 ]}
    ∧ life t' = 40.
Proof.
  destruct (legacy_commander_damage_leaves_life (state_after duo) 1%N
              (mkConn "player1" (Some "ABCDEF")) later "player1" "player2" 21
              "ABCDEF" duo_room
              1%nat (default (creator_of 0 "") (players duo_room !! 1%nat))
              0%nat (default (creator_of 0 "") (players duo_room !! 0%nat)))
    as (s' & out & room' & t' & Hstep & Hr & Hplayers & Hdamage & Hlife).
  - vm_compute. reflexivity.
  - vm_compute. reflexivity.
  - vm_compute. reflexivity.
  - vm_compute. reflexivity.
  - exists s', out, room', t'. split; [exact Hstep|]. split; [exact Hr|].
    split; [exact Hplayers|]. rewrite Hdamage, Hlife.
    split; vm_compute; reflexivity.
Defined.
